(** * Decorated graph states: the rewriting and measurement engine

    A shallow embedding of [graphix/graphsim/basegraphstate.py]
    (class [BaseGraphState]).  The class mutates one graph object in
    place and signals misuse with exceptions, so every method is a
    computation in a state monad whose result is either a value or a
    raised exception; the graph reached at the moment of a [raise] is
    kept, since that is what the caller of the Python method observes. *)

From stdpp Require Import gmap strings list fin_maps fin_sets sorting.

Open Scope Z_scope.

(** ** Data model *)

(** The three decoration flags of a node, [self.nodes[i]["hollow"]],
    [self.nodes[i]["sign"]] and [self.nodes[i]["loop"]]. *)
Record NodeAttr := mkAttr { hollow : bool; sign : bool; loop : bool }.

Global Instance NodeAttr_eq_dec : EqDecision NodeAttr.
Proof. solve_decision. Defined.

(** Modelled from the spec: the storage of the graph is abstract in the
    source file ([nodes], [edges] and [graph] are abstract properties).
    The graph object is the node container, which gives every node its
    three flags, and the container of undirected edges; an undirected
    edge between [a] and [b] is stored in both orientations. *)
Record GraphState := mkGraph {
  nodes : gmap Z NodeAttr;
  edges : gset (Z * Z)
}.

Global Instance GraphState_eq_dec : EqDecision GraphState.
Proof. solve_decision. Defined.

(** Exceptions the engine can raise. *)
Inductive exn :=
| KeyError (n : Z)          (* [self.nodes[n]] on an absent node *)
| NodeNotFound (n : Z)      (* the backend asked about an absent node *)
| ValueError (msg : string) (* the [raise ValueError(...)] of the source *)
| StopIteration.            (* [next] on an exhausted iterator *)

Inductive result (A : Type) :=
| Ok (a : A)
| Raise (e : exn).
Arguments Ok {A} a.
Arguments Raise {A} e.

(** ** The monad of methods *)

Definition M (A : Type) : Type := GraphState → result A * GraphState.

Definition ret {A} (a : A) : M A := λ g, (Ok a, g).

Definition bind {A B} (m : M A) (k : A → M B) : M B := λ g,
  match m g with
  | (Ok a, g') => k a g'
  | (Raise e, g') => (Raise e, g')
  end.

Declare Scope M_scope.
Delimit Scope M_scope with M.
Bind Scope M_scope with M.
Notation "x ← y ; z" := (bind y (λ x, z))
  (at level 20, y at level 100, z at level 200, only parsing) : M_scope.
Notation "x ;; z" := (bind x (λ _, z))
  (at level 100, z at level 200, only parsing, right associativity) : M_scope.
Open Scope M_scope.

Definition raise {A} (e : exn) : M A := λ g, (Raise e, g).

(** [for i in l: body(i)] *)
Fixpoint for_each (l : list Z) (body : Z → M unit) : M unit :=
  match l with
  | [] => ret tt
  | i :: l' => body i ;; for_each l' body
  end.

(** [for i in l: ...] whose body may [return] from the enclosing method:
    [Some r] is the value returned early, [None] means the loop ran to
    its end. *)
Fixpoint for_return {R} (l : list Z) (body : Z → M (option R)) : M (option R) :=
  match l with
  | [] => ret None
  | i :: l' => r ← body i; match r with Some v => ret (Some v) | None => for_return l' body end
  end.

(** ** The graph backend

    [BaseGraphState] is abstract in its storage: [nodes], [edges],
    [neighbors], [remove_node] and [local_complement] are declared there
    and implemented by the backends. *)

(** The order in which the backend iterates over a set of nodes.  The
    engine is written against any backend, so the order is an interface
    of its own; it enumerates the set without repetition. *)
Class IterOrder := {
  order : gset Z → list Z;
  order_perm : ∀ X, order X ≡ₚ elements X
}.

(** The set of neighbours of [n] in an edge container. *)
Definition nbrs (E : gset (Z * Z)) (n : Z) : gset Z :=
  set_map snd (filter (λ e, e.1 = n) E).

(** The ordered pairs of distinct members of [N]. *)
Definition pairs_among (N : gset Z) : gset (Z * Z) :=
  set_bind (λ a, set_map (λ b, (a, b)) (N ∖ {[a]})) N.

(** Toggling every edge among the neighbours of [n]. *)
Definition lc_edges (E : gset (Z * Z)) (n : Z) : gset (Z * Z) :=
  let K := pairs_among (nbrs E n) in (E ∖ K) ∪ (K ∖ E).

Section Backend.
Context `{IterOrder}.

(** Modelled from the spec: [self.nodes[n]], the dictionary-like entry of
    a node in the abstract [nodes] container; an absent node is a
    not-found error. *)
Definition attr (n : Z) : M NodeAttr := λ g,
  match nodes g !! n with
  | Some a => (Ok a, g)
  | None => (Raise (KeyError n), g)
  end.

(** Modelled from the spec: an assignment [self.nodes[n][flag] = ...],
    given as the new entry of the node; an absent node is a not-found
    error. *)
Definition set_attr (n : Z) (a : NodeAttr) : M unit := λ g,
  match nodes g !! n with
  | Some _ => (Ok tt, mkGraph (<[n := a]> (nodes g)) (edges g))
  | None => (Raise (KeyError n), g)
  end.

(** Modelled from the spec: the iteration [for i in self.nodes] over the
    abstract [nodes] container. *)
Definition node_list : M (list Z) := λ g, (Ok (order (dom (nodes g))), g).

(** Modelled from the spec: the membership test [(a, b) in self.edges] on
    the abstract [edges] container. *)
Definition has_edge (a b : Z) : M bool := λ g,
  (Ok (bool_decide ((a, b) ∈ edges g)), g).

(** Modelled from the spec: the backends' [neighbors] is not part of the
    source file.  It iterates over the neighbours of [n]; a node absent
    from the graph is a not-found error. *)
Definition neighbors (n : Z) : M (list Z) := λ g,
  match nodes g !! n with
  | Some _ => (Ok (order (nbrs (edges g) n)), g)
  | None => (Raise (NodeNotFound n), g)
  end.

(** Modelled from the spec: the backends' [remove_node] is not part of
    the source file.  The node is destroyed together with its incident
    edges; a node absent from the graph is a not-found error. *)
Definition remove_node (n : Z) : M unit := λ g,
  match nodes g !! n with
  | Some _ =>
      (Ok tt, mkGraph (delete n (nodes g))
                      (filter (λ e, e.1 ≠ n ∧ e.2 ≠ n) (edges g)))
  | None => (Raise (NodeNotFound n), g)
  end.

(** Modelled from the spec: [local_complement] is abstract in the source
    file.  It toggles the presence of every edge among pairs of distinct
    neighbours of [n]; the flags and the edges at [n] are untouched. *)
Definition local_complement (n : Z) : M unit := λ g,
  match nodes g !! n with
  | Some _ => (Ok tt, mkGraph (nodes g) (lc_edges (edges g) n))
  | None => (Raise (NodeNotFound n), g)
  end.
End Backend.

(** ** The local Clifford tables

    [graphix.clifford] is imported by the engine and is not part of the
    source file: the enumeration [Clifford], whose members are numbered
    by [.value], the decomposition [Clifford(v).hsz] of a member into
    factors, and the product [@].  The engine only needs the three
    members [Clifford.Z], [Clifford.H], [Clifford.S], the decomposition
    and the product on indices, so these are taken as an interface. *)
Class CliffordTable := {
  Clifford_Z : Z;                (* [Clifford.Z.value] *)
  Clifford_H : Z;                (* [Clifford.H.value] *)
  Clifford_S : Z;                (* [Clifford.S.value] *)
  hsz : Z → option (list Z);     (* [Clifford(v).hsz]; [None]: [v] is no member *)
  matmul : Z → Z → Z             (* [(Clifford(a) @ Clifford(b)).value] *)
}.

(** ** The engine: the concrete methods of [BaseGraphState] *)

Section Engine.
Context `{IterOrder} `{CliffordTable}.

(** [self.nodes[n]["hollow"]] and its siblings, as reads. *)
Definition get (flag : NodeAttr → bool) (n : Z) : M bool :=
  a ← attr n; ret (flag a).

(** [self.nodes[n]["hollow"] = v] and its siblings. *)
Definition set_hollow (n : Z) (v : bool) : M unit :=
  a ← attr n; set_attr n (mkAttr v (sign a) (loop a)).
Definition set_sign (n : Z) (v : bool) : M unit :=
  a ← attr n; set_attr n (mkAttr (hollow a) v (loop a)).
Definition set_loop (n : Z) (v : bool) : M unit :=
  a ← attr n; set_attr n (mkAttr (hollow a) (sign a) v).

Definition flip_fill (node : Z) : M unit :=
  v ← get hollow node; set_hollow node (negb v).

Definition flip_sign (node : Z) : M unit :=
  v ← get sign node; set_sign node (negb v).

Definition advance (node : Z) : M unit :=
  lp ← get loop node;
  if lp then set_loop node false ;; flip_sign node
  else set_loop node true.

Definition h (node : Z) : M unit := flip_fill node.

Definition s (node : Z) : M unit :=
  hl ← get hollow node;
  if hl then
    lp ← get loop node;
    if lp then
      flip_fill node ;;
      set_loop node false ;;
      local_complement node ;;
      nb ← neighbors node;
      for_each nb advance
    else
      local_complement node ;;
      nb ← neighbors node;
      for_each nb advance ;;
      sg ← get sign node;
      if sg then nb' ← neighbors node; for_each nb' flip_sign
      else ret tt
  else advance node.

Definition z (node : Z) : M unit :=
  hl ← get hollow node;
  if hl then
    nb ← neighbors node;
    for_each nb flip_sign ;;
    lp ← get loop node;
    if lp then flip_sign node else ret tt
  else flip_sign node.

Definition equivalent_graph_e1 (node : Z) : M unit :=
  lp ← get loop node;
  if negb lp then raise (ValueError "node must have loop") else
  flip_fill node ;;
  local_complement node ;;
  nb ← neighbors node;
  for_each nb advance ;;
  flip_sign node ;;
  sg ← get sign node;
  if sg then nb' ← neighbors node; for_each nb' flip_sign
  else ret tt.

Definition equivalent_graph_e2 (node1 node2 : Z) : M unit :=
  e12 ← has_edge node1 node2;
  e21 ← has_edge node2 node1;
  if negb e12 && negb e21 then raise (ValueError "nodes must be connected by an edge") else
  l1 ← get loop node1;
  l12 ← (if l1 then ret true else get loop node2);
  if l12 then raise (ValueError "nodes must not have loop") else
  sg1 ← get sign node1;
  sg2 ← get sign node2;
  flip_fill node1 ;;
  flip_fill node2 ;;
  local_complement node1 ;;
  local_complement node2 ;;
  local_complement node1 ;;
  nb1 ← neighbors node1;
  nb2 ← neighbors node2;
  for_each (order (list_to_set nb1 ∩ list_to_set nb2)) flip_sign ;;
  (if sg1 then
     flip_sign node1 ;; nb ← neighbors node1; for_each nb flip_sign
   else ret tt) ;;
  (if sg2 then
     flip_sign node2 ;; nb ← neighbors node2; for_each nb flip_sign
   else ret tt).

Definition equivalent_fill_node (node : Z) : M Z :=
  hl ← get hollow node;
  if hl then
    lp ← get loop node;
    if lp then equivalent_graph_e1 node ;; ret 0 else
    nb ← neighbors node;
    if (length nb =? 0)%nat then ret 1 else
    nb' ← neighbors node;
    r ← for_return nb' (λ i,
           li ← get loop i;
           if negb li then equivalent_graph_e2 node i ;; ret (Some 0)
           else ret None);
    match r with
    | Some v => ret v
    | None =>
        nb'' ← neighbors node;
        match nb'' with
        | [] => raise StopIteration
        | i :: _ =>
            equivalent_graph_e1 i ;;
            equivalent_graph_e1 node ;;
            ret 0
        end
    end
  else
    nb ← neighbors node;
    if (length nb =? 0)%nat then ret 2 else ret 0.

Definition measure_z (node : Z) (choice : Z) : M Z :=
  if negb ((choice =? 0) || (choice =? 1)) then raise (ValueError "choice must be 0 or 1") else
  isolated ← equivalent_fill_node node;
  (if negb (choice =? 0) then nb ← neighbors node; for_each nb flip_sign
   else ret tt) ;;
  result ← (if isolated =? 0 then ret choice
            else sg ← get sign node; ret (Z.b2z sg));
  remove_node node ;;
  ret result.

Definition measure_x (node : Z) (choice : Z) : M Z :=
  if negb ((choice =? 0) || (choice =? 1)) then raise (ValueError "choice must be 0 or 1") else
  nb ← neighbors node;
  if (length nb =? 0)%nat then
    hl ← get hollow node;
    hl_or_lp ← (if hl then ret true else get loop node);
    choice_ ← (if hl_or_lp then ret choice
               else sg ← get sign node; if sg then ret 1 else ret 0);
    remove_node node ;;
    ret choice_
  else
    h node ;;
    measure_z node choice.

Definition measure_y (node : Z) (choice : Z) : M Z :=
  if negb ((choice =? 0) || (choice =? 1)) then raise (ValueError "choice must be 0 or 1") else
  s node ;;
  z node ;;
  h node ;;
  measure_z node choice.

(** The body of the loop of [get_vops] for one node. *)
Definition vop_of (a : NodeAttr) : Z :=
  let vop := 0 in
  let vop := if sign a then matmul Clifford_Z vop else vop in
  let vop := if loop a then matmul Clifford_S vop else vop in
  let vop := if hollow a then matmul Clifford_H vop else vop in
  vop.

(** [get_vops]: the dictionary is built in the iteration order of the
    nodes, which is also the order in which [apply_vops] walks it. *)
Fixpoint get_vops_loop (l : list Z) (vops : list (Z * Z)) : M (list (Z * Z)) :=
  match l with
  | [] => ret vops
  | i :: l' =>
      let vop := 0 in
      sg ← get sign i;
      let vop := if sg then matmul Clifford_Z vop else vop in
      lp ← get loop i;
      let vop := if lp then matmul Clifford_S vop else vop in
      hl ← get hollow i;
      let vop := if hl then matmul Clifford_H vop else vop in
      get_vops_loop l' (vops ++ [(i, vop)])
  end.

Definition get_vops : M (list (Z * Z)) :=
  l ← node_list; get_vops_loop l [].

(** One factor of a decomposition, applied as a gate. *)
Definition apply_factor (node : Z) (lc : Z) : M unit :=
  if decide (lc = Clifford_Z) then z node
  else if decide (lc = Clifford_H) then h node
  else if decide (lc = Clifford_S) then s node
  else ret tt.

Fixpoint apply_vops (vops : list (Z * Z)) : M unit :=
  match vops with
  | [] => ret tt
  | (node, vop) :: rest =>
      match hsz vop with
      | None => raise (ValueError "not a valid Clifford")
      | Some factors =>
          for_each (rev factors) (apply_factor node) ;;
          apply_vops rest
      end
  end.
End Engine.

(** ** A canonical backend order *)

(** Modelled from the spec: the iteration order of the backends is not
    part of the source file; the spec names ascending node identifier as a
    canonical order. *)

Definition ascending (X : gset Z) : list Z := merge_sort Z.le (elements X).

Global Instance ascending_order : IterOrder :=
  {| order := ascending; order_perm := λ X, merge_sort_Permutation Z.le (elements X) |}.

(** ** A Clifford table *)

(** Modelled from the spec: the tables of [graphix.clifford] are not part
    of the source file.  The spec asks for a bijection between the indices
    0..23 and the single-qubit Clifford group, a composition operator on
    indices and a decomposition of every member into identity, H, S and Z
    factors.  A member is represented by its action by conjugation on the
    Pauli operators X and Z; index 0 is the identity. *)
Module Pauli.
Inductive axis := AX | AY | AZ.
Record spauli := SP { neg : bool; ax : axis }.
Record clifford := CL { imX : spauli; imZ : spauli }.

Global Instance axis_eq_dec : EqDecision axis.
Proof. solve_decision. Defined.
Global Instance spauli_eq_dec : EqDecision spauli.
Proof. solve_decision. Defined.
Global Instance clifford_eq_dec : EqDecision clifford.
Proof. solve_decision. Defined.

(** For distinct axes [p], [q] the product of the two Pauli operators is
    [i] or [-i] times the third one: [third p q] is that axis and
    [anticyclic p q] tells the sign [-i]. *)
Definition third (p q : axis) : axis :=
  match p, q with
  | AX, AY | AY, AX => AZ
  | AY, AZ | AZ, AY => AX
  | _, _ => AY
  end.
Definition anticyclic (p q : axis) : bool :=
  match p, q with
  | AY, AX | AZ, AY | AX, AZ => true
  | _, _ => false
  end.

(** The image of Y = iXZ. *)
Definition imY (c : clifford) : spauli :=
  SP (negb (xorb (xorb (neg (imX c)) (neg (imZ c)))
                 (anticyclic (ax (imX c)) (ax (imZ c)))))
     (third (ax (imX c)) (ax (imZ c))).

Definition act (c : clifford) (p : spauli) : spauli :=
  let q := match ax p with AX => imX c | AY => imY c | AZ => imZ c end in
  SP (xorb (neg p) (neg q)) (ax q).

(** [compose a b] is the operator product [a b]: [b] acts first. *)
Definition compose (a b : clifford) : clifford :=
  CL (act a (imX b)) (act a (imZ b)).

Definition cI : clifford := CL (SP false AX) (SP false AZ).
Definition cX : clifford := CL (SP false AX) (SP true AZ).
Definition cY : clifford := CL (SP true AX) (SP true AZ).
Definition cZ : clifford := CL (SP true AX) (SP false AZ).
Definition cS : clifford := CL (SP false AY) (SP false AZ).
Definition cSdg : clifford := CL (SP true AY) (SP false AZ).
Definition cH : clifford := CL (SP false AZ) (SP false AX).

Definition signed : list spauli :=
  [AX; AY; AZ] ≫= λ p, [SP false p; SP true p].

Definition all24 : list clifford :=
  signed ≫= λ px, signed ≫= λ pz,
  if decide (ax px = ax pz) then [] else [CL px pz].

Definition named : list clifford := [cI; cX; cY; cZ; cS; cSdg; cH].

(** The enumeration: the named members first, then the others. *)
Definition members : list clifford :=
  named ++ filter (λ c, c ∉ named) all24.

Fixpoint index_from (i : Z) (l : list clifford) (c : clifford) : Z :=
  match l with
  | [] => i
  | c' :: l' => if decide (c' = c) then i else index_from (i + 1) l' c
  end.
Definition index (c : clifford) : Z := index_from 0 members c.

Definition member (v : Z) : option clifford :=
  if decide (0 ≤ v) then members !! Z.to_nat v else None.

Definition mul (a b : Z) : Z :=
  match member a, member b with
  | Some ca, Some cb => index (compose ca cb)
  | _, _ => 0
  end.

(** The words of length [k] over the generators Z, S, H (as indices). *)
Fixpoint words (k : nat) : list (list Z) :=
  match k with
  | O => [[]]
  | S k' => words k' ≫= λ w, [index cZ; index cS; index cH] ≫= λ g, [g :: w]
  end.

Definition eval (w : list Z) : Z := foldr mul 0 w.

(** A shortest decomposition of a member into generators; the identity
    decomposes into the identity factor. *)
Definition decompose (v : Z) : option (list Z) :=
  match member v with
  | None => None
  | Some _ =>
      if decide (v = 0) then Some [0]
      else head (filter (λ w, eval w = v)
                   (words 1 ++ words 2 ++ words 3 ++ words 4 ++ words 5 ++ words 6))
  end.
End Pauli.

(** Modelled from the spec: the Clifford table the engine is run with on
    concrete graphs, the members [Clifford.Z], [Clifford.H], [Clifford.S]
    being the Z, H and S operators. *)
Global Instance pauli_table : CliffordTable :=
  {| Clifford_Z := Pauli.index Pauli.cZ;
     Clifford_H := Pauli.index Pauli.cH;
     Clifford_S := Pauli.index Pauli.cS;
     hsz := Pauli.decompose;
     matmul := Pauli.mul |}.

(** ** Well-formed graphs and the effect of the primitives *)

(** The invariant of the data model: edges are undirected (stored in both
    orientations), there is no self-loop edge, and every node referenced
    by an edge exists. *)
Definition wf (g : GraphState) : Prop :=
  set_Forall (λ e, (e.2, e.1) ∈ edges g ∧ e.1 ≠ e.2 ∧ e.1 ∈ dom (nodes g))
             (edges g).

Global Instance wf_dec g : Decision (wf g).
Proof. unfold wf. apply _. Defined.

(** What [flip_fill], [flip_sign] and [advance] do to the flags of their
    node. *)
Definition fill_attr (a : NodeAttr) : NodeAttr :=
  mkAttr (negb (hollow a)) (sign a) (loop a).
Definition sign_attr (a : NodeAttr) : NodeAttr :=
  mkAttr (hollow a) (negb (sign a)) (loop a).
Definition advance_attr (a : NodeAttr) : NodeAttr :=
  if loop a then mkAttr (hollow a) (negb (sign a)) false
  else mkAttr (hollow a) (sign a) true.
Definition unloop_attr (a : NodeAttr) : NodeAttr :=
  mkAttr (hollow a) (sign a) false.

(** A graph with the flags of node [n] changed by [f], of the nodes of
    [l] changed one after the other, and with the edges complemented
    around [n]. *)
Definition upd_attr (f : NodeAttr → NodeAttr) (n : Z) (g : GraphState) : GraphState :=
  mkGraph (alter f n (nodes g)) (edges g).
Definition upd_attrs (f : NodeAttr → NodeAttr) (l : list Z) (g : GraphState) : GraphState :=
  foldl (λ g' i, upd_attr f i g') g l.
Definition lc (n : Z) (g : GraphState) : GraphState :=
  mkGraph (nodes g) (lc_edges (edges g) n).

(** The flag [flag] of node [n], when the node exists. *)
Definition flag_of (flag : NodeAttr → bool) (g : GraphState) (n : Z) : option bool :=
  flag <$> nodes g !! n.

(** [z] may only touch [sign] flags, and only at the nodes of [S]. *)
Definition only_signs_in (S : gset Z) (g g' : GraphState) : Prop :=
  edges g' = edges g ∧
  dom (nodes g') = dom (nodes g) ∧
  (∀ m, flag_of hollow g' m = flag_of hollow g m ∧
        flag_of loop g' m = flag_of loop g m) ∧
  (∀ m, m ∉ S → nodes g' !! m = nodes g !! m).

(** ** Scenario graphs *)

Definition undecorated : NodeAttr := mkAttr false false false.

(** A single node [0] without edges, with the given flags. *)
Definition single (a : NodeAttr) : GraphState := mkGraph {[ 0 := a ]} ∅.

(** The path 0 - 1 - 2 with node 1 hollow. *)
Definition path3 : GraphState :=
  mkGraph (<[0 := undecorated]> (<[1 := mkAttr true false false]> {[ 2 := undecorated ]}))
          {[ (0, 1); (1, 0); (1, 2); (2, 1) ]}.
(** The graph after rule E1 at [n]. *)
Definition e1_state `{IterOrder} (n : Z) (g : GraphState) : GraphState :=
  let g1 := lc n (upd_attr fill_attr n g) in
  let nb := order (nbrs (edges g1) n) in
  let g2 := upd_attr sign_attr n (upd_attrs advance_attr nb g1) in
  if default false (flag_of sign g2 n) then upd_attrs sign_attr nb g2 else g2.

(** The graph after the gate [z] at [n]. *)
Definition z_state `{IterOrder} (n : Z) (g : GraphState) : GraphState :=
  if default false (flag_of hollow g n) then
    let g1 := upd_attrs sign_attr (order (nbrs (edges g) n)) g in
    if default false (flag_of loop g n) then upd_attr sign_attr n g1 else g1
  else upd_attr sign_attr n g.

(** The graph after the gate [s] at [n]. *)
Definition s_state `{IterOrder} (n : Z) (g : GraphState) : GraphState :=
  if default false (flag_of hollow g n) then
    if default false (flag_of loop g n) then
      let g1 := lc n (upd_attr unloop_attr n (upd_attr fill_attr n g)) in
      upd_attrs advance_attr (order (nbrs (edges g1) n)) g1
    else
      let g1 := lc n g in
      let nb := order (nbrs (edges g1) n) in
      let g2 := upd_attrs advance_attr nb g1 in
      if default false (flag_of sign g n) then upd_attrs sign_attr nb g2 else g2
  else upd_attr advance_attr n g.

(** The dictionary [get_vops] builds, in the iteration order of the nodes. *)
Definition vops_of `{IterOrder} `{CliffordTable} (g : GraphState) : list (Z * Z) :=
  (λ i, (i, from_option vop_of 0 (nodes g !! i))) <$> order (dom (nodes g)).

(** A decomposition without a Z, H or S factor applies no gate. *)
Definition no_gate `{CliffordTable} (factors : list Z) : Prop :=
  Forall (λ c, c ≠ Clifford_Z ∧ c ≠ Clifford_H ∧ c ≠ Clifford_S) factors.

Global Instance no_gate_dec `{CliffordTable} factors : Decision (no_gate factors).
Proof. unfold no_gate. apply _. Defined.

(** Node 0 hollow, joined to node 1, which has a loop. *)
Definition hollow_next_to_loop : GraphState :=
  mkGraph (<[0 := mkAttr true false false]> {[ 1 := mkAttr false false true ]})
          {[ (0, 1); (1, 0) ]}.

(** ** Definitions for the further properties *)

(** The flags of the node itself after [s] and after [z]. *)
Definition s_attr (a : NodeAttr) : NodeAttr :=
  if hollow a then (if loop a then mkAttr false (sign a) false else a)
  else advance_attr a.
Definition z_attr (a : NodeAttr) : NodeAttr :=
  if hollow a then (if loop a then sign_attr a else a) else sign_attr a.

(** The nodes whose sign [z] toggles, from the flags of the node. *)
Definition z_targets (a : NodeAttr) (E : gset (Z * Z)) (n : Z) : gset Z :=
  if hollow a then (if loop a then {[n]} ∪ nbrs E n else nbrs E n) else {[n]}.

(** The path 0 - 1 - 2 with node 1 hollow with a loop. *)
Definition hollow_loop_path : GraphState :=
  mkGraph (<[0 := undecorated]> (<[1 := mkAttr true false true]> {[ 2 := undecorated ]}))
          {[ (0, 1); (1, 0); (1, 2); (2, 1) ]}.

(** * Proofs *)

(** ** Running the monad *)

Lemma bind_ok {A B} (m : M A) (k : A → M B) g a g' :
  m g = (Ok a, g') → bind m k g = k a g'.
Proof. unfold bind. by intros ->. Qed.

Lemma bind_raise {A B} (m : M A) (k : A → M B) g e g' :
  m g = (Raise e, g') → bind m k g = (Raise e, g').
Proof. unfold bind. by intros ->. Qed.

Lemma bind_inv {A B} (m : M A) (k : A → M B) g b g' :
  bind m k g = (Ok b, g') → ∃ a g1, m g = (Ok a, g1) ∧ k a g1 = (Ok b, g').
Proof.
  unfold bind. destruct (m g) as [[a|e] g1]; [eauto | discriminate].
Qed.

Lemma ret_inv {A} (a b : A) g g' : ret a g = (Ok b, g') → a = b ∧ g = g'.
Proof. unfold ret. by inversion 1. Qed.

Lemma bind_assoc {A B C} (m : M A) (k : A → M B) (k' : B → M C) g :
  bind (bind m k) k' g = bind m (λ a, bind (k a) k') g.
Proof. unfold bind. by destruct (m g) as [[a|e] g1]. Qed.

(** ** Edge sets *)

Lemma elem_of_nbrs (E : gset (Z * Z)) (n m : Z) : m ∈ nbrs E n ↔ (n, m) ∈ E.
Proof.
  unfold nbrs. rewrite elem_of_map. split.
  - intros [[a b] [-> [Ha Hb]%elem_of_filter]]. simpl in *. by subst.
  - intros Hm. exists (n, m). split; [done|]. by apply elem_of_filter.
Qed.

Lemma elem_of_pairs_among (N : gset Z) (a b : Z) :
  (a, b) ∈ pairs_among N ↔ a ∈ N ∧ b ∈ N ∧ a ≠ b.
Proof.
  unfold pairs_among. rewrite elem_of_set_bind. split.
  - intros (x & Hx & Hab). apply elem_of_map in Hab as (y & Heq & Hy).
    injection Heq as -> ->.
    apply elem_of_difference in Hy as [Hy Hne]. rewrite elem_of_singleton in Hne. done.
  - intros (Ha & Hb & Hne). exists a. split; [done|].
    apply elem_of_map. exists b. set_solver.
Qed.

Lemma elem_of_lc_edges (E : gset (Z * Z)) (n a b : Z) :
  (a, b) ∈ lc_edges E n ↔
  ((a, b) ∈ E ∧ ¬ ((n, a) ∈ E ∧ (n, b) ∈ E ∧ a ≠ b)) ∨
  (((n, a) ∈ E ∧ (n, b) ∈ E ∧ a ≠ b) ∧ (a, b) ∉ E).
Proof.
  unfold lc_edges. cbv zeta.
  rewrite elem_of_union, !elem_of_difference, elem_of_pairs_among, !elem_of_nbrs.
  tauto.
Qed.

Lemma nbrs_lc_edges (E : gset (Z * Z)) (n : Z) :
  (n, n) ∉ E → nbrs (lc_edges E n) n = nbrs E n.
Proof.
  intros Hn. apply set_eq. intros m.
  rewrite !elem_of_nbrs, elem_of_lc_edges. tauto.
Qed.

Lemma lc_edges_involutive (E : gset (Z * Z)) (n : Z) :
  (n, n) ∉ E → lc_edges (lc_edges E n) n = E.
Proof.
  intros Hn. apply set_eq. intros [a b].
  rewrite elem_of_lc_edges. rewrite !elem_of_lc_edges.
  destruct (decide ((a, b) ∈ E)), (decide ((n, a) ∈ E)),
    (decide ((n, b) ∈ E)), (decide (a = b)); subst; tauto.
Qed.

(** ** Well-formed graphs *)

Lemma wf_sym g a b : wf g → (a, b) ∈ edges g → (b, a) ∈ edges g.
Proof. intros Hwf Hab. by destruct (Hwf _ Hab) as (? & _). Qed.

Lemma wf_irrefl g a : wf g → (a, a) ∉ edges g.
Proof. intros Hwf Haa. by destruct (Hwf _ Haa) as (_ & ? & _). Qed.

Lemma wf_dom_l g a b : wf g → (a, b) ∈ edges g → a ∈ dom (nodes g).
Proof. intros Hwf Hab. by destruct (Hwf _ Hab) as (_ & _ & ?). Qed.

Lemma wf_dom_r g a b : wf g → (a, b) ∈ edges g → b ∈ dom (nodes g).
Proof. intros Hwf Hab. eapply wf_dom_l, wf_sym; eauto. Qed.

Lemma wf_intro g :
  (∀ a b, (a, b) ∈ edges g → (b, a) ∈ edges g) →
  (∀ a, (a, a) ∉ edges g) →
  (∀ a b, (a, b) ∈ edges g → a ∈ dom (nodes g)) →
  wf g.
Proof.
  intros Hs Hi Hd [a b] Hab. simpl. repeat split; eauto.
  intros ->. by eapply Hi.
Qed.

(** Well-formedness only depends on the node set and the edges. *)
Lemma wf_same g g' :
  dom (nodes g') = dom (nodes g) → edges g' = edges g → wf g → wf g'.
Proof. unfold wf. intros -> ->. done. Qed.

Lemma wf_lc n g : wf g → wf (lc n g).
Proof.
  intros Hwf. apply wf_intro; simpl.
  - intros a b. rewrite !elem_of_lc_edges.
    intros [[Hab Hn]|[(Ha & Hb & Hne) Hn]].
    + left. split; [by apply wf_sym|]. intros (? & ? & ?). apply Hn. eauto.
    + right. split; [eauto|]. intros ?. apply Hn. by apply wf_sym.
  - intros a. rewrite elem_of_lc_edges.
    intros [[Haa _]|[(_ & _ & Hne) _]]; [by eapply wf_irrefl|done].
  - intros a b. rewrite elem_of_lc_edges.
    intros [[Hab _]|[(Ha & _) _]]; [by eapply wf_dom_l|by eapply wf_dom_r].
Qed.

Lemma wf_remove n g :
  wf g → wf (mkGraph (delete n (nodes g)) (filter (λ e, e.1 ≠ n ∧ e.2 ≠ n) (edges g))).
Proof.
  intros Hwf. apply wf_intro; simpl.
  - intros a b [[??] ?]%elem_of_filter. simpl in *.
    apply elem_of_filter. split; [done|]. by apply wf_sym.
  - intros a [_ ?]%elem_of_filter. by eapply wf_irrefl.
  - intros a b [[??] ?]%elem_of_filter. simpl in *.
    rewrite dom_delete_L. apply elem_of_difference. split; [by eapply wf_dom_l|set_solver].
Qed.

(** ** The iteration order *)

Section Order.
Context `{IterOrder}.

Lemma elem_of_order (X : gset Z) (x : Z) : x ∈ order X ↔ x ∈ X.
Proof. rewrite (order_perm X). apply elem_of_elements. Qed.

Lemma NoDup_order (X : gset Z) : NoDup (order X).
Proof. rewrite (order_perm X). apply NoDup_elements. Qed.

Lemma order_nil (X : gset Z) : order X = [] ↔ X = ∅.
Proof.
  split.
  - intros Hnil. apply set_eq. intros x. rewrite <- elem_of_order, Hnil. set_solver.
  - intros ->. apply Permutation_nil_r. by rewrite (order_perm ∅), elements_empty.
Qed.

Lemma order_length_0 (X : gset Z) : (length (order X) =? 0)%nat = bool_decide (X = ∅).
Proof.
  case_bool_decide as HX.
  - apply order_nil in HX. by rewrite HX.
  - destruct (order X) eqn:Ho; [|done]. by apply order_nil in Ho.
Qed.
End Order.

(** ** The effect of the primitives *)

Lemma insert_as_alter (f : NodeAttr → NodeAttr) (n : Z) (m : gmap Z NodeAttr) a :
  m !! n = Some a → <[n := f a]> m = alter f n m.
Proof.
  intros Hn. apply map_eq. intros k. destruct (decide (n = k)) as [->|Hne].
  - by rewrite lookup_insert_eq, lookup_alter_eq, Hn.
  - by rewrite lookup_insert_ne, lookup_alter_ne.
Qed.

Lemma dom_upd_attr f n g : dom (nodes (upd_attr f n g)) = dom (nodes g).
Proof. apply dom_alter_L. Qed.

Lemma edges_upd_attrs f l g : edges (upd_attrs f l g) = edges g.
Proof.
  revert g. induction l as [|i l IH]; intros g; simpl; [done|]. by rewrite IH.
Qed.

Lemma dom_upd_attrs f l g : dom (nodes (upd_attrs f l g)) = dom (nodes g).
Proof.
  revert g. induction l as [|i l IH]; intros g; simpl; [done|].
  by rewrite IH, dom_upd_attr.
Qed.

Lemma lookup_upd_attrs_notin f l g k :
  k ∉ l → nodes (upd_attrs f l g) !! k = nodes g !! k.
Proof.
  revert g. induction l as [|i l IH]; intros g Hk; simpl; [done|].
  apply not_elem_of_cons in Hk as [Hne Hk].
  rewrite IH by done. simpl. by rewrite lookup_alter_ne.
Qed.

Lemma lookup_upd_attrs_in f l g k :
  NoDup l → k ∈ l → nodes (upd_attrs f l g) !! k = f <$> nodes g !! k.
Proof.
  revert g. induction l as [|i l IH]; intros g Hnd Hk; simpl.
  - by apply elem_of_nil in Hk.
  - apply NoDup_cons in Hnd as [Hi Hnd].
    apply elem_of_cons in Hk as [->|Hk].
    + rewrite lookup_upd_attrs_notin by done. simpl. by rewrite lookup_alter_eq.
    + rewrite IH by done. simpl. rewrite lookup_alter_ne; [done|]. by intros ->.
Qed.

Lemma wf_upd_attr f n g : wf g → wf (upd_attr f n g).
Proof. apply wf_same; [apply dom_upd_attr|done]. Qed.

Lemma wf_upd_attrs f l g : wf g → wf (upd_attrs f l g).
Proof. apply wf_same; [apply dom_upd_attrs|apply edges_upd_attrs]. Qed.

Section Run.
Context `{IterOrder}.

Lemma run_attr n g a : nodes g !! n = Some a → attr n g = (Ok a, g).
Proof. unfold attr. by intros ->. Qed.

Lemma run_get flag n g a :
  nodes g !! n = Some a → get flag n g = (Ok (flag a), g).
Proof. intros Hn. unfold get. by rewrite (bind_ok _ _ _ _ _ (run_attr _ _ _ Hn)). Qed.

Lemma run_get_missing flag n g :
  nodes g !! n = None → get flag n g = (Raise (KeyError n), g).
Proof. intros Hn. unfold get, bind, attr. by rewrite Hn. Qed.

Lemma run_set f n g a :
  nodes g !! n = Some a → set_attr n (f a) g = (Ok tt, upd_attr f n g).
Proof.
  intros Hn. unfold set_attr, upd_attr. rewrite Hn.
  by rewrite (insert_as_alter f n _ a Hn).
Qed.

Lemma run_flip_fill n g :
  n ∈ dom (nodes g) → flip_fill n g = (Ok tt, upd_attr fill_attr n g).
Proof.
  intros [a Hn]%elem_of_dom. unfold flip_fill, set_hollow.
  rewrite (bind_ok _ _ _ _ _ (run_get _ _ _ _ Hn)).
  rewrite (bind_ok _ _ _ _ _ (run_attr _ _ _ Hn)).
  apply (run_set fill_attr _ _ _ Hn).
Qed.

Lemma run_flip_sign n g :
  n ∈ dom (nodes g) → flip_sign n g = (Ok tt, upd_attr sign_attr n g).
Proof.
  intros [a Hn]%elem_of_dom. unfold flip_sign, set_sign.
  rewrite (bind_ok _ _ _ _ _ (run_get _ _ _ _ Hn)).
  rewrite (bind_ok _ _ _ _ _ (run_attr _ _ _ Hn)).
  apply (run_set sign_attr _ _ _ Hn).
Qed.

Lemma run_unloop n g :
  n ∈ dom (nodes g) → set_loop n false g = (Ok tt, upd_attr unloop_attr n g).
Proof.
  intros [a Hn]%elem_of_dom. unfold set_loop.
  rewrite (bind_ok _ _ _ _ _ (run_attr _ _ _ Hn)).
  apply (run_set unloop_attr _ _ _ Hn).
Qed.

Lemma run_advance n g :
  n ∈ dom (nodes g) → advance n g = (Ok tt, upd_attr advance_attr n g).
Proof.
  intros [a Hn]%elem_of_dom. unfold advance.
  rewrite (bind_ok _ _ _ _ _ (run_get _ _ _ _ Hn)).
  destruct (loop a) eqn:Hl.
  - erewrite bind_ok by (apply run_unloop, elem_of_dom; eauto).
    rewrite run_flip_sign by (rewrite dom_upd_attr; apply elem_of_dom; eauto).
    f_equal. unfold upd_attr; simpl. f_equal.
    apply map_eq. intros k. destruct (decide (n = k)) as [->|Hne].
    + rewrite !lookup_alter_eq, Hn. simpl. unfold advance_attr. by rewrite Hl.
    + by rewrite !lookup_alter_ne.
  - unfold set_loop. rewrite (bind_ok _ _ _ _ _ (run_attr _ _ _ Hn)).
    replace (mkAttr (hollow a) (sign a) true) with (advance_attr a)
      by (unfold advance_attr; by rewrite Hl).
    apply (run_set advance_attr _ _ _ Hn).
Qed.

Lemma run_local_complement n g :
  n ∈ dom (nodes g) → local_complement n g = (Ok tt, lc n g).
Proof. intros [a Hn]%elem_of_dom. unfold local_complement. by rewrite Hn. Qed.

Lemma run_neighbors n g :
  n ∈ dom (nodes g) → neighbors n g = (Ok (order (nbrs (edges g) n)), g).
Proof. intros [a Hn]%elem_of_dom. unfold neighbors. by rewrite Hn. Qed.

Lemma run_for_each f body l g :
  (∀ n g, n ∈ dom (nodes g) → body n g = (Ok tt, upd_attr f n g)) →
  (∀ i, i ∈ l → i ∈ dom (nodes g)) →
  for_each l body g = (Ok tt, upd_attrs f l g).
Proof.
  intros Hbody. revert g. induction l as [|i l IH]; intros g Hl; simpl; [done|].
  rewrite (bind_ok _ _ _ _ _ (Hbody i g (Hl i (list_elem_of_here _ _)))).
  apply IH. intros j Hj. rewrite dom_upd_attr. apply Hl. by right.
Qed.

(** On a well-formed graph the neighbours of an existing node exist. *)
Lemma neighbors_in_dom g n i :
  wf g → i ∈ order (nbrs (edges g) n) → i ∈ dom (nodes g).
Proof.
  intros Hwf Hi%elem_of_order%elem_of_nbrs. by eapply wf_dom_r.
Qed.
End Run.

Lemma dom_lc n g : dom (nodes (lc n g)) = dom (nodes g).
Proof. done. Qed.

Lemma edges_upd_attr f n g : edges (upd_attr f n g) = edges g.
Proof. done. Qed.

Lemma edges_lc n g : edges (lc n g) = lc_edges (edges g) n.
Proof. done. Qed.

Lemma nodes_lc n g : nodes (lc n g) = nodes g.
Proof. done. Qed.

Lemma lookup_upd_attr_eq f n g : nodes (upd_attr f n g) !! n = f <$> nodes g !! n.
Proof. apply lookup_alter_eq. Qed.

Lemma lookup_upd_attr_ne f n g k : n ≠ k → nodes (upd_attr f n g) !! k = nodes g !! k.
Proof. apply lookup_alter_ne. Qed.

Create HintDb graph.
Create Rewrite HintDb graph.

Global Hint Rewrite dom_upd_attr dom_upd_attrs dom_lc edges_upd_attr edges_upd_attrs
  edges_lc nodes_lc : graph.
Global Hint Resolve wf_upd_attr wf_upd_attrs wf_lc : graph.

(** Side conditions of the form "the node exists in the current graph". *)
Ltac in_dom :=
  autorewrite with graph;
  first [ assumption
        | apply elem_of_dom; eauto; fail
        | eapply wf_dom_l; eauto; fail
        | eapply wf_dom_r; eauto; fail ].

(** One step of symbolic execution: run the first command of a sequence
    with the lemma [lem] that gives its result. *)
Ltac run lem := erewrite bind_ok by (apply lem; in_dom).
Ltac run_loop lem :=
  erewrite bind_ok
    by (apply (run_for_each _ _ _ _ lem); intros ??;
        eapply neighbors_in_dom; eauto with graph).

Section Rules.
Context `{IterOrder}.

Lemma dom_e1_state n g : dom (nodes (e1_state n g)) = dom (nodes g).
Proof.
  unfold e1_state. cbv zeta. case_match; by autorewrite with graph.
Qed.

Lemma edges_e1_state n g : edges (e1_state n g) = lc_edges (edges g) n.
Proof.
  unfold e1_state. cbv zeta. case_match; by autorewrite with graph.
Qed.

Lemma wf_e1_state n g : wf g → wf (e1_state n g).
Proof.
  intros Hwf. unfold e1_state. cbv zeta. case_match; eauto 10 with graph.
Qed.

Lemma run_e1 n g a :
  wf g → nodes g !! n = Some a → loop a = true →
  equivalent_graph_e1 n g = (Ok tt, e1_state n g).
Proof.
  intros Hwf Hn Hl. unfold equivalent_graph_e1.
  rewrite (bind_ok _ _ _ _ _ (run_get _ _ _ _ Hn)). rewrite Hl. simpl.
  run run_flip_fill. run run_local_complement. run run_neighbors.
  run_loop run_advance. run run_flip_sign.
  unfold e1_state. cbv zeta. autorewrite with graph.
  set (g2 := upd_attr sign_attr n _).
  assert (is_Some (nodes g2 !! n)) as [a2 Ha2].
  { apply elem_of_dom. unfold g2. in_dom. }
  rewrite (bind_ok _ _ _ _ _ (run_get _ _ _ _ Ha2)).
  unfold flag_of. rewrite Ha2. simpl. destruct (sign a2); [|done].
  assert (wf g2) by (unfold g2; eauto 10 with graph).
  erewrite bind_ok by (apply run_neighbors; apply elem_of_dom; eauto).
  rewrite (run_for_each sign_attr); [|apply run_flip_sign|].
  - unfold g2 at 1. by autorewrite with graph.
  - intros i Hi. eapply neighbors_in_dom; eauto.
Qed.

Lemma run_h n g : n ∈ dom (nodes g) → h n g = (Ok tt, upd_attr fill_attr n g).
Proof. apply run_flip_fill. Qed.

(** Rule E2 runs to its end on two connected loopless nodes and keeps
    the graph well formed on the same node set. *)
Lemma e2_ok n1 n2 g a1 a2 :
  wf g → (n1, n2) ∈ edges g ∨ (n2, n1) ∈ edges g →
  nodes g !! n1 = Some a1 → nodes g !! n2 = Some a2 →
  loop a1 = false → loop a2 = false →
  ∃ g', equivalent_graph_e2 n1 n2 g = (Ok tt, g') ∧ wf g' ∧
        dom (nodes g') = dom (nodes g).
Proof.
  intros Hwf He H1 H2 Hl1 Hl2. unfold equivalent_graph_e2.
  unfold has_edge at 1. rewrite (bind_ok _ _ _ (bool_decide ((n1, n2) ∈ edges g)) g) by done.
  unfold has_edge at 1. rewrite (bind_ok _ _ _ (bool_decide ((n2, n1) ∈ edges g)) g) by done.
  assert ((n1, n2) ∈ edges g ∧ (n2, n1) ∈ edges g) as [He1 He2].
  { destruct He; split; auto using wf_sym. }
  rewrite !bool_decide_eq_true_2 by done. simpl.
  rewrite (bind_ok _ _ _ _ _ (run_get _ _ _ _ H1)). rewrite Hl1.
  rewrite (bind_ok _ _ _ _ _ (run_get _ _ _ _ H2)). rewrite Hl2.
  rewrite (bind_ok _ _ _ _ _ (run_get _ _ _ _ H1)).
  rewrite (bind_ok _ _ _ _ _ (run_get _ _ _ _ H2)).
  run run_flip_fill. run run_flip_fill.
  run run_local_complement. run run_local_complement. run run_local_complement.
  run run_neighbors. run run_neighbors.
  set (g3 := lc n1 _).
  assert (wf g3) as Hwf3 by (unfold g3; eauto 10 with graph).
  assert (dom (nodes g3) = dom (nodes g)) as Hd3
    by (unfold g3; by autorewrite with graph).
  erewrite bind_ok; cycle 1.
  { apply (run_for_each sign_attr); [apply run_flip_sign|].
    intros i Hi%elem_of_order%elem_of_intersection. destruct Hi as [Hi _].
    apply elem_of_list_to_set in Hi. eapply neighbors_in_dom; eauto. }
  set (g4 := upd_attrs sign_attr _ g3).
  assert (wf g4) as Hwf4 by (unfold g4; eauto with graph).
  assert (dom (nodes g4) = dom (nodes g)) as Hd4
    by (unfold g4; by autorewrite with graph).
  assert (n1 ∈ dom (nodes g)) as Hn1 by (apply elem_of_dom; eauto).
  assert (n2 ∈ dom (nodes g)) as Hn2 by (apply elem_of_dom; eauto).
  clearbody g4. clear g3 Hwf3 Hd3.
  assert (∀ (b : bool) n g5, wf g5 → dom (nodes g5) = dom (nodes g) →
            n ∈ dom (nodes g) →
            ∃ g6, (if b then flip_sign n ;; nb ← neighbors n; for_each nb flip_sign
                   else ret tt) g5 = (Ok tt, g6) ∧ wf g6 ∧
                  dom (nodes g6) = dom (nodes g)) as Htail.
  { intros [] n g5 Hwf5 Hd5 Hn5; [|by eexists].
    erewrite bind_ok by (apply run_flip_sign; by rewrite Hd5).
    erewrite bind_ok by (apply run_neighbors; autorewrite with graph; by rewrite Hd5).
    rewrite (run_for_each sign_attr); [|apply run_flip_sign|].
    - eexists. split; [done|]. split; [eauto with graph|].
      by autorewrite with graph.
    - intros i Hi. eapply neighbors_in_dom; eauto with graph. }
  destruct (Htail (sign a1) n1 g4) as (g6 & Hr6 & Hwf6 & Hd6); try done.
  rewrite (bind_ok _ _ _ _ _ Hr6).
  destruct (Htail (sign a2) n2 g6) as (g7 & Hr & Hwf7 & Hd7); try done.
  exists g7. rewrite Hr. done.
Qed.

(** The graph after [z], and after [s], on a well-formed graph. *)
Lemma run_z n g a :
  wf g → nodes g !! n = Some a →
  z n g = (Ok tt, z_state n g).
Proof.
  intros Hwf Hn. unfold z, z_state. unfold flag_of. rewrite Hn. simpl.
  rewrite (bind_ok _ _ _ _ _ (run_get _ _ _ _ Hn)).
  destruct (hollow a); [|apply run_flip_sign; in_dom].
  run run_neighbors. run_loop run_flip_sign.
  assert (n ∉ order (nbrs (edges g) n)) as Hnn.
  { rewrite elem_of_order, elem_of_nbrs. by apply wf_irrefl. }
  erewrite bind_ok; cycle 1.
  { apply run_get. rewrite lookup_upd_attrs_notin by done. done. }
  destruct (loop a); [|done]. apply run_flip_sign. in_dom.
Qed.

Lemma dom_z_state n g : dom (nodes (z_state n g)) = dom (nodes g).
Proof.
  unfold z_state. repeat case_match; by autorewrite with graph.
Qed.

Lemma edges_z_state n g : edges (z_state n g) = edges g.
Proof.
  unfold z_state. repeat case_match; by autorewrite with graph.
Qed.

Lemma wf_z_state n g : wf g → wf (z_state n g).
Proof. apply wf_same; [apply dom_z_state|apply edges_z_state]. Qed.

Lemma run_s n g a :
  wf g → nodes g !! n = Some a →
  s n g = (Ok tt, s_state n g).
Proof.
  intros Hwf Hn. unfold s, s_state. unfold flag_of. rewrite Hn. simpl.
  rewrite (bind_ok _ _ _ _ _ (run_get _ _ _ _ Hn)).
  destruct (hollow a); [|apply run_advance; in_dom].
  rewrite (bind_ok _ _ _ _ _ (run_get _ _ _ _ Hn)).
  destruct (loop a).
  - run run_flip_fill. run run_unloop. run run_local_complement.
    run run_neighbors.
    apply (run_for_each advance_attr); [apply run_advance|].
    intros i Hi. eapply neighbors_in_dom; eauto 10 with graph.
  - run run_local_complement. run run_neighbors. run_loop run_advance.
    assert (n ∉ order (nbrs (edges (lc n g)) n)) as Hnn.
    { rewrite elem_of_order, elem_of_nbrs. by apply wf_irrefl, wf_lc. }
    erewrite bind_ok; cycle 1.
    { apply run_get. rewrite lookup_upd_attrs_notin by done. done. }
    destruct (sign a); [|done].
    run run_neighbors. autorewrite with graph.
    apply (run_for_each sign_attr); [apply run_flip_sign|].
    intros i Hi. eapply (neighbors_in_dom (upd_attrs _ _ (lc n g))); eauto with graph.
    by autorewrite with graph.
Qed.

Lemma dom_s_state n g : dom (nodes (s_state n g)) = dom (nodes g).
Proof.
  unfold s_state. cbv zeta. repeat case_match; by autorewrite with graph.
Qed.

Lemma wf_s_state n g : wf g → wf (s_state n g).
Proof.
  intros Hwf. unfold s_state. cbv zeta. repeat case_match; eauto 10 with graph.
Qed.

(** ** Filling a node *)

(** After rule E1 at [i] every neighbour of [i] has its loop toggled. *)
Lemma loop_after_e1 i g m :
  wf g → m ∈ nbrs (edges g) i →
  flag_of loop (e1_state i g) m = negb <$> flag_of loop g m.
Proof.
  intros Hwf Hm. assert (i ≠ m) as Hne.
  { intros ->. apply elem_of_nbrs in Hm. by eapply wf_irrefl. }
  assert (flag_of loop
            (upd_attr sign_attr i
               (upd_attrs advance_attr (order (nbrs (edges g) i))
                  (lc i (upd_attr fill_attr i g)))) m
          = negb <$> flag_of loop g m) as Hg2.
  { unfold flag_of. rewrite lookup_upd_attr_ne by done.
    rewrite lookup_upd_attrs_in by (auto using NoDup_order; by apply elem_of_order).
    rewrite nodes_lc, lookup_upd_attr_ne by done.
    destruct (nodes g !! m) as [a|]; [|done]. simpl. f_equal.
    unfold advance_attr. by destruct (loop a). }
  unfold e1_state. cbv zeta. autorewrite with graph.
  rewrite nbrs_lc_edges by (by apply wf_irrefl).
  case_match; [|done].
  unfold flag_of in *. rewrite lookup_upd_attrs_in
    by (auto using NoDup_order; by apply elem_of_order).
  rewrite <- Hg2, <- !option_fmap_compose. by apply option_fmap_ext.
Qed.

(** The scan of [equivalent_fill_node] for a loopless neighbour, over a
    list of neighbours of [n]. *)
Lemma fill_scan n g a l :
  wf g → nodes g !! n = Some a → loop a = false →
  (∀ i, i ∈ l → i ∈ nbrs (edges g) n) →
  let body := λ i, li ← get loop i;
                   if negb li then equivalent_graph_e2 n i ;; ret (Some 0)
                   else ret None in
  (for_return l body g = (Ok None, g) ∧
   ∀ i, i ∈ l → flag_of loop g i = Some true) ∨
  (∃ g', for_return l body g = (Ok (Some 0), g') ∧ wf g' ∧
         dom (nodes g') = dom (nodes g)).
Proof.
  intros Hwf Hn Hl Hsub body. induction l as [|i l IH].
  - left. split; [done|]. intros i Hi. by apply elem_of_nil in Hi.
  - assert ((n, i) ∈ edges g) as Hni by (apply elem_of_nbrs, Hsub; left).
    assert (is_Some (nodes g !! i)) as [ai Hi]
      by (eapply elem_of_dom, wf_dom_r; eauto).
    assert (for_return (i :: l) body g =
            if loop ai then for_return l body g
            else (r ← (equivalent_graph_e2 n i ;; ret (Some 0));
                  match r with
                  | Some v => ret (Some v)
                  | None => for_return l body
                  end) g) as ->.
    { simpl. unfold body at 1. rewrite bind_assoc.
      rewrite (bind_ok _ _ _ _ _ (run_get _ _ _ _ Hi)).
      by destruct (loop ai). }
    destruct (loop ai) eqn:Hli.
    + destruct IH as [[Hr Hall]|Hr].
      * intros j Hj. apply Hsub. by right.
      * left. split; [done|]. intros j [->|Hj]%elem_of_cons; [|by auto].
        unfold flag_of. by rewrite Hi, <- Hli.
      * by right.
    + right. destruct (e2_ok n i g a ai) as (g' & He2 & Hwf' & Hd'); auto.
      exists g'. rewrite !bind_assoc. rewrite (bind_ok _ _ _ _ _ He2).
      done.
Qed.

(** [equivalent_fill_node] on a well-formed graph: it runs to its end,
    keeps the graph well formed on the same nodes, and its status is
    decided by the flags and the neighbourhood of the node. *)
Lemma fill_ok n g a :
  wf g → nodes g !! n = Some a →
  ∃ r g', equivalent_fill_node n g = (Ok r, g') ∧ wf g' ∧
          dom (nodes g') = dom (nodes g) ∧
          (nbrs (edges g) n ≠ ∅ → r = 0) ∧
          (nbrs (edges g) n = ∅ →
           r = if hollow a then (if loop a then 0 else 1) else 2) ∧
          (r ≠ 0 → g' = g).
Proof.
  intros Hwf Hn. unfold equivalent_fill_node.
  rewrite (bind_ok _ _ _ _ _ (run_get _ _ _ _ Hn)).
  destruct (hollow a) eqn:Hh.
  - rewrite (bind_ok _ _ _ _ _ (run_get _ _ _ _ Hn)).
    destruct (loop a) eqn:Hl.
    + rewrite (bind_ok _ _ _ _ _ (run_e1 _ _ _ Hwf Hn Hl)).
      eexists 0, _. split; [done|].
      split; [by apply wf_e1_state|]. split; [apply dom_e1_state|]. done.
    + run run_neighbors. rewrite order_length_0.
      case_bool_decide as Hnb.
      { eexists 1, g. by split_and!. }
      run run_neighbors.
      destruct (fill_scan n g a (order (nbrs (edges g) n)) Hwf Hn Hl)
        as [[Hr Hall]|(g' & Hr & Hwf' & Hd')].
      { intros i. by rewrite elem_of_order. }
      * rewrite (bind_ok _ _ _ _ _ Hr). run run_neighbors.
        destruct (order (nbrs (edges g) n)) as [|i l] eqn:Ho.
        { by apply order_nil in Ho. }
        assert (i ∈ nbrs (edges g) n) as Hi
          by (apply elem_of_order; rewrite Ho; left).
        assert (flag_of loop g i = Some true) as Hli by (apply Hall; left).
        unfold flag_of in Hli.
        destruct (nodes g !! i) as [ai|] eqn:Hai; [|done].
        injection Hli as Hli.
        rewrite (bind_ok _ _ _ _ _ (run_e1 _ _ _ Hwf Hai Hli)).
        assert (flag_of loop (e1_state i g) n = Some true) as Hln.
        { rewrite loop_after_e1; [|done|].
          - unfold flag_of. rewrite Hn. simpl. by rewrite Hl.
          - apply elem_of_nbrs, wf_sym; [done|]. by apply elem_of_nbrs. }
        unfold flag_of in Hln.
        destruct (nodes (e1_state i g) !! n) as [a'|] eqn:Ha'; [|done].
        injection Hln as Hln.
        rewrite (bind_ok _ _ _ _ _
                   (run_e1 _ _ _ (wf_e1_state _ _ Hwf) Ha' Hln)).
        eexists 0, _. split; [done|].
        split; [by apply wf_e1_state, wf_e1_state|].
        split; [by rewrite !dom_e1_state|]. done.
      * rewrite (bind_ok _ _ _ _ _ Hr). eexists 0, g'. by split_and!.
  - run run_neighbors. rewrite order_length_0.
    case_bool_decide as Hnb.
    + eexists 2, g. by split_and!.
    + eexists 0, g. by split_and!.
Qed.

(** ** Measurements *)

Lemma run_remove_node n g :
  n ∈ dom (nodes g) →
  remove_node n g =
    (Ok tt, mkGraph (delete n (nodes g))
                    (filter (λ e, e.1 ≠ n ∧ e.2 ≠ n) (edges g))).
Proof. intros [a Hn]%elem_of_dom. unfold remove_node. by rewrite Hn. Qed.

(** [measure_z] on a well-formed graph runs to its end, removes the
    node, and returns [choice] unless the fill status says "isolated". *)
Lemma measure_z_ok n c g a :
  wf g → nodes g !! n = Some a → c = 0 ∨ c = 1 →
  ∃ g', measure_z n c g =
          (Ok (if decide (nbrs (edges g) n = ∅)
               then (if hollow a && loop a then c else Z.b2z (sign a))
               else c), g') ∧
        wf g' ∧ (n ∉ dom (nodes g')) ∧
        dom (nodes g') = dom (nodes g) ∖ {[n]}.
Proof.
  intros Hwf Hn Hc. unfold measure_z.
  replace ((c =? 0) || (c =? 1)) with true by (by destruct Hc as [-> | ->]).
  simpl.
  destruct (fill_ok n g a Hwf Hn) as (r & g1 & Hfill & Hwf1 & Hd1 & Hcon & Hiso & Hsame).
  rewrite (bind_ok _ _ _ _ _ Hfill).
  assert (n ∈ dom (nodes g)) as Hnd by (apply elem_of_dom; eauto).
  set (g2 := if negb (c =? 0)
             then upd_attrs sign_attr (order (nbrs (edges g1) n)) g1 else g1).
  assert ((if negb (c =? 0) then nb ← neighbors n; for_each nb flip_sign
           else ret tt) g1 = (Ok tt, g2)) as Hflip.
  { unfold g2. destruct (negb (c =? 0)); [|done].
    erewrite bind_ok by (apply run_neighbors; by rewrite Hd1).
    apply (run_for_each sign_attr); [apply run_flip_sign|].
    intros i Hi. eapply neighbors_in_dom; eauto. }
  rewrite (bind_ok _ _ _ _ _ Hflip).
  assert (wf g2) as Hwf2 by (unfold g2; case_match; eauto with graph).
  assert (dom (nodes g2) = dom (nodes g)) as Hd2
    by (unfold g2; case_match; by autorewrite with graph).
  assert ((if r =? 0 then ret c else sg ← get sign n; ret (Z.b2z sg)) g2 =
          (Ok (if decide (nbrs (edges g) n = ∅)
               then (if hollow a && loop a then c else Z.b2z (sign a))
               else c), g2)) as Hres.
  { assert (r ≠ 0 → nodes g2 !! n = Some a) as Hn2.
    { intros Hr. unfold g2. rewrite (Hsame Hr). case_match; [|done].
      rewrite lookup_upd_attrs_notin; [done|].
      rewrite elem_of_order, elem_of_nbrs. by apply wf_irrefl. }
    destruct (decide (nbrs (edges g) n = ∅)) as [Hnb|Hnb].
    - rewrite (Hiso Hnb) in *.
      destruct (hollow a), (loop a); simpl; try done;
        by rewrite (bind_ok _ _ _ _ _ (run_get _ _ _ _ (Hn2 ltac:(done)))).
    - by rewrite (Hcon Hnb). }
  rewrite (bind_ok _ _ _ _ _ Hres).
  erewrite bind_ok by (apply run_remove_node; by rewrite Hd2).
  eexists. split; [done|]. split; [by apply wf_remove|]. simpl.
  rewrite dom_delete_L, Hd2. split; [|done].
  apply not_elem_of_difference. right. by apply elem_of_singleton.
Qed.

Lemma measure_x_ok n c g a :
  wf g → nodes g !! n = Some a → c = 0 ∨ c = 1 →
  ∃ r g', measure_x n c g = (Ok r, g') ∧ wf g' ∧ (n ∉ dom (nodes g')).
Proof.
  intros Hwf Hn Hc. unfold measure_x.
  replace ((c =? 0) || (c =? 1)) with true by (by destruct Hc as [-> | ->]).
  simpl. assert (n ∈ dom (nodes g)) as Hnd by (apply elem_of_dom; eauto).
  run run_neighbors. destruct (length _ =? 0)%nat.
  - rewrite (bind_ok _ _ _ _ _ (run_get _ _ _ _ Hn)).
    assert (∃ b, (if hollow a then ret true else get loop n) g = (Ok b, g))
      as [b Hb].
    { destruct (hollow a); [by eexists|]. eexists. by apply run_get. }
    rewrite (bind_ok _ _ _ _ _ Hb).
    assert (∃ r, (if b then ret c
                  else sg ← get sign n; if sg then ret 1 else ret 0) g
                 = (Ok r, g)) as [r Hr].
    { destruct b; [by eexists|].
      rewrite (bind_ok _ _ _ _ _ (run_get _ _ _ _ Hn)).
      destruct (sign a); by eexists. }
    rewrite (bind_ok _ _ _ _ _ Hr). run run_remove_node.
    eexists _, _. split; [done|]. split; [by apply wf_remove|]. simpl.
    rewrite dom_delete_L. apply not_elem_of_difference. right.
    by apply elem_of_singleton.
  - run run_h.
    destruct (measure_z_ok n c (upd_attr fill_attr n g) (fill_attr a))
      as (g' & Hz & Hwf' & Hnot & _); [eauto with graph| |done|].
    { by rewrite lookup_upd_attr_eq, Hn. }
    eauto.
Qed.

Lemma measure_y_ok n c g a :
  wf g → nodes g !! n = Some a → c = 0 ∨ c = 1 →
  ∃ r g', measure_y n c g = (Ok r, g') ∧ wf g' ∧ (n ∉ dom (nodes g')).
Proof.
  intros Hwf Hn Hc. unfold measure_y.
  replace ((c =? 0) || (c =? 1)) with true by (by destruct Hc as [-> | ->]).
  simpl. assert (n ∈ dom (nodes g)) as Hnd by (apply elem_of_dom; eauto).
  rewrite (bind_ok _ _ _ _ _ (run_s _ _ _ Hwf Hn)).
  assert (is_Some (nodes (s_state n g) !! n)) as [a1 Ha1]
    by (apply elem_of_dom; by rewrite dom_s_state).
  rewrite (bind_ok _ _ _ _ _ (run_z _ _ _ (wf_s_state _ _ Hwf) Ha1)).
  erewrite bind_ok by (apply run_h; by rewrite dom_z_state, dom_s_state).
  set (g3 := upd_attr fill_attr n _).
  assert (wf g3) as Hwf3
    by (unfold g3; auto using wf_upd_attr, wf_z_state, wf_s_state).
  assert (is_Some (nodes g3 !! n)) as [a3 Ha3].
  { apply elem_of_dom. unfold g3.
    by rewrite dom_upd_attr, dom_z_state, dom_s_state. }
  destruct (measure_z_ok n c g3 a3) as (g' & Hz & Hwf' & Hnot & _); eauto.
Qed.

(** A measurement that returns has removed its node, on any graph. *)
Lemma remove_node_inv n g g' :
  remove_node n g = (Ok tt, g') → n ∉ dom (nodes g').
Proof.
  unfold remove_node. destruct (nodes g !! n); [|discriminate].
  injection 1 as <-. simpl. rewrite dom_delete_L.
  apply not_elem_of_difference. right. by apply elem_of_singleton.
Qed.

Lemma measure_z_removes n c g r g' :
  measure_z n c g = (Ok r, g') → n ∉ dom (nodes g').
Proof.
  unfold measure_z. destruct (negb _); [discriminate|].
  intros (isolated & g1 & _ & Hk)%bind_inv.
  apply bind_inv in Hk as ([] & g2 & _ & Hk).
  apply bind_inv in Hk as (res & g3 & _ & Hk).
  apply bind_inv in Hk as ([] & g4 & Hrm & Hk).
  apply ret_inv in Hk as [_ <-]. by eapply remove_node_inv.
Qed.

Lemma measure_x_removes n c g r g' :
  measure_x n c g = (Ok r, g') → n ∉ dom (nodes g').
Proof.
  unfold measure_x. destruct (negb _); [discriminate|].
  intros (nb & g1 & _ & Hk)%bind_inv. destruct (length nb =? 0)%nat.
  - apply bind_inv in Hk as (hl & g2 & _ & Hk).
    apply bind_inv in Hk as (b & g3 & _ & Hk).
    apply bind_inv in Hk as (res & g4 & _ & Hk).
    apply bind_inv in Hk as ([] & g5 & Hrm & Hk).
    apply ret_inv in Hk as [_ <-]. by eapply remove_node_inv.
  - apply bind_inv in Hk as ([] & g2 & _ & Hk). by eapply measure_z_removes.
Qed.

Lemma measure_y_removes n c g r g' :
  measure_y n c g = (Ok r, g') → n ∉ dom (nodes g').
Proof.
  unfold measure_y. destruct (negb _); [discriminate|].
  intros ([] & g1 & _ & Hk)%bind_inv.
  apply bind_inv in Hk as ([] & g2 & _ & Hk).
  apply bind_inv in Hk as ([] & g3 & _ & Hk). by eapply measure_z_removes.
Qed.
End Rules.

Lemma wf_path3 : wf path3.
Proof. apply (bool_decide_unpack _). vm_compute. exact I. Qed.

(** * Properties of the specification *)

Section Claims.
Context `{IterOrder} `{CliffordTable}.

(** ** Reading the vertex operators *)

Lemma get_inv flag n g b g' :
  get flag n g = (Ok b, g') → g' = g ∧ flag_of flag g n = Some b.
Proof.
  unfold get, bind, attr, flag_of. destruct (nodes g !! n); [|discriminate].
  unfold ret. by injection 1 as <- <-.
Qed.

Lemma get_vops_loop_spec l acc g :
  (∀ i, i ∈ l → i ∈ dom (nodes g)) →
  get_vops_loop l acc g =
    (Ok (acc ++ ((λ i, (i, from_option vop_of 0 (nodes g !! i))) <$> l)), g).
Proof.
  revert acc. induction l as [|i l IH]; intros acc Hl; simpl.
  - by rewrite app_nil_r.
  - assert (is_Some (nodes g !! i)) as [a Ha] by (apply elem_of_dom, Hl; left).
    rewrite !(bind_ok _ _ _ _ _ (run_get _ _ _ _ Ha)).
    rewrite IH by (intros j Hj; apply Hl; by right).
    rewrite Ha. simpl. by rewrite <- app_assoc.
Qed.

Lemma get_vops_spec g : get_vops g = (Ok (vops_of g), g).
Proof.
  unfold get_vops, node_list, bind.
  rewrite get_vops_loop_spec; [done|]. intros i. by rewrite elem_of_order.
Qed.

(** C10: [get_vops] only reads.  Whatever the Clifford table and the
    iteration order, it returns normally and leaves the graph (nodes,
    edges and the three flags of every node) as it was; a node whose
    three flags are false is mapped to index 0, and to nothing else. *)
Theorem get_vops_pure_read g :
  get_vops g = (Ok (vops_of g), g) ∧
  (vops_of g).*1 = order (dom (nodes g)) ∧
  ∀ i, nodes g !! i = Some undecorated →
       (i, 0) ∈ vops_of g ∧ ∀ v, (i, v) ∈ vops_of g → v = 0.
Proof.
  split; [apply get_vops_spec|]. unfold vops_of. split.
  - rewrite <- list_fmap_compose. apply list_fmap_id.
  - intros i Hi. split.
    + apply list_elem_of_fmap. exists i. rewrite Hi. split; [done|].
      apply elem_of_order, elem_of_dom. eauto.
    + intros v (j & Heq & _)%list_elem_of_fmap.
      injection Heq as <- ->. by rewrite Hi.
Qed.

Lemma apply_no_gate n l g :
  no_gate l → for_each l (apply_factor n) g = (Ok tt, g).
Proof.
  induction 1 as [|c l (HZ & HH & HS) _ IH]; simpl; [done|].
  unfold apply_factor at 1. rewrite !decide_False by done.
  unfold bind, ret. apply IH.
Qed.

Lemma apply_vops_identity (nl : list Z) factors g :
  hsz 0 = Some factors → no_gate factors →
  apply_vops ((λ i, (i, 0)) <$> nl) g = (Ok tt, g).
Proof.
  intros Hhsz Hno. induction nl as [|i nl IH]; simpl; [done|].
  rewrite Hhsz.
  rewrite (bind_ok _ _ _ tt g); [done|].
  apply apply_no_gate. unfold no_gate in *. by apply Forall_rev.
Qed.

(** C1 (amended): on a graph all of whose nodes have their three flags
    false, [apply_vops(get_vops())] leaves the graph, and so the three
    flags of every node, unchanged; this holds whenever the
    decomposition of index 0 has no Z, H or S factor. *)
Theorem apply_get_vops_undecorated g factors :
  hsz 0 = Some factors → no_gate factors →
  map_Forall (λ _ a, a = undecorated) (nodes g) →
  (vops ← get_vops; apply_vops vops) g = (Ok tt, g).
Proof.
  intros Hhsz Hno Hun. rewrite (bind_ok _ _ _ _ _ (get_vops_spec g)).
  unfold vops_of.
  erewrite (list_fmap_ext _ (λ i, (i, 0))); [by eapply apply_vops_identity|].
  intros k i Hi. destruct (nodes g !! i) as [a|] eqn:Ha; [|done].
  by rewrite (Hun i a Ha).
Qed.

(** ** Filling and measuring *)

(** C2 (amended): on a well-formed graph, for a node that exists and a
    choice in {0,1}, [measure_z] returns normally; the outcome is
    [choice] when the node has a neighbour, and also when it is isolated
    but hollow with a loop (rule E1 fills it and the status is 0); for
    every other isolated node it is the node's sign flag, whatever the
    choice. *)
Theorem measure_z_outcome n c g a :
  wf g → nodes g !! n = Some a → c = 0 ∨ c = 1 →
  (measure_z n c g).1 =
    Ok (if decide (nbrs (edges g) n = ∅)
        then (if hollow a && loop a then c else Z.b2z (sign a))
        else c).
Proof.
  intros Hwf Hn Hc.
  destruct (measure_z_ok n c g a Hwf Hn Hc) as (g' & -> & _). done.
Qed.

Lemma neighbors_inv n g l g' :
  neighbors n g = (Ok l, g') → g' = g ∧ l = order (nbrs (edges g) n).
Proof.
  unfold neighbors. destruct (nodes g !! n); [|discriminate].
  by injection 1 as <- <-.
Qed.

Lemma for_return_some (l : list Z) (body : Z → M (option Z)) g v g' :
  (∀ i g1 w g2, body i g1 = (Ok (Some w), g2) → w = 0) →
  for_return l body g = (Ok (Some v), g') → v = 0.
Proof.
  intros Hbody. revert g. induction l as [|i l IH]; intros g; simpl.
  - unfold ret. discriminate.
  - intros ([w|] & g1 & Hb & Hk)%bind_inv.
    + apply ret_inv in Hk as [Hk _]. injection Hk as <-. by eapply Hbody.
    + by eapply IH.
Qed.

Lemma fill_status_unchanged n g r g' :
  equivalent_fill_node n g = (Ok r, g') → r ≠ 0 → g' = g.
Proof.
  unfold equivalent_fill_node.
  intros (hl & g1 & [-> _]%get_inv & Hk)%bind_inv Hr. destruct hl.
  - apply bind_inv in Hk as (lp & g1 & [-> _]%get_inv & Hk). destruct lp.
    { apply bind_inv in Hk as (? & ? & _ & [? _]%ret_inv). congruence. }
    apply bind_inv in Hk as (nb & g1 & [-> _]%neighbors_inv & Hk).
    destruct (length nb =? 0)%nat.
    { by apply ret_inv in Hk as [_ ->]. }
    apply bind_inv in Hk as (nb' & g1 & [-> _]%neighbors_inv & Hk).
    apply bind_inv in Hk as ([v|] & g1 & Hscan & Hk).
    + apply ret_inv in Hk as [-> _]. exfalso. apply Hr.
      eapply for_return_some; [|exact Hscan]. clear.
      intros i g1 w g2 (li & g3 & _ & Hk)%bind_inv. destruct (negb li).
      * apply bind_inv in Hk as (? & ? & _ & [? _]%ret_inv). congruence.
      * apply ret_inv in Hk as [? _]. congruence.
    + apply bind_inv in Hk as (nb'' & g2 & _ & Hk).
      destruct nb''; [discriminate|].
      apply bind_inv in Hk as (? & ? & _ & Hk).
      apply bind_inv in Hk as (? & ? & _ & [? _]%ret_inv). congruence.
  - apply bind_inv in Hk as (nb & g1 & [-> _]%neighbors_inv & Hk).
    destruct (length nb =? 0)%nat; by apply ret_inv in Hk as [_ ->].
Qed.

(** C3: for a node that exists, [equivalent_fill_node] returns 2 when the
    node is not hollow and has no neighbour, 0 when it is not hollow and
    has a neighbour, and 1 when it is hollow, without loop and without
    neighbour; whenever the status is 1 or 2 the graph is exactly the
    one before the call. *)
Theorem equivalent_fill_node_status n g a :
  nodes g !! n = Some a →
  (hollow a = false → nbrs (edges g) n = ∅ →
   equivalent_fill_node n g = (Ok 2, g)) ∧
  (hollow a = false → nbrs (edges g) n ≠ ∅ →
   equivalent_fill_node n g = (Ok 0, g)) ∧
  (hollow a = true → loop a = false → nbrs (edges g) n = ∅ →
   equivalent_fill_node n g = (Ok 1, g)) ∧
  (∀ r g', equivalent_fill_node n g = (Ok r, g') → r = 1 ∨ r = 2 → g' = g).
Proof.
  intros Hn. assert (n ∈ dom (nodes g)) as Hnd by (apply elem_of_dom; eauto).
  split_and!.
  - intros Hh Hnb. unfold equivalent_fill_node.
    rewrite (bind_ok _ _ _ _ _ (run_get _ _ _ _ Hn)), Hh.
    run run_neighbors. rewrite order_length_0. by rewrite bool_decide_eq_true_2.
  - intros Hh Hnb. unfold equivalent_fill_node.
    rewrite (bind_ok _ _ _ _ _ (run_get _ _ _ _ Hn)), Hh.
    run run_neighbors. rewrite order_length_0. by rewrite bool_decide_eq_false_2.
  - intros Hh Hl Hnb. unfold equivalent_fill_node.
    rewrite (bind_ok _ _ _ _ _ (run_get _ _ _ _ Hn)), Hh.
    rewrite (bind_ok _ _ _ _ _ (run_get _ _ _ _ Hn)), Hl.
    run run_neighbors. rewrite order_length_0. by rewrite bool_decide_eq_true_2.
  - intros r g' Hfill Hr. eapply fill_status_unchanged; [done|].
    destruct Hr as [-> | ->]; done.
Qed.

(** C4: on a well-formed graph, [equivalent_graph_e2] raises exactly when
    the two nodes are not joined by an edge (in either orientation) or
    one of them has a loop; what it raises then is a [ValueError], and
    the graph is the one before the call.  Otherwise it returns. *)
Theorem equivalent_graph_e2_errors n1 n2 g :
  wf g →
  let bad := (((n1, n2) ∉ edges g) ∧ ((n2, n1) ∉ edges g)) ∨
             flag_of loop g n1 = Some true ∨ flag_of loop g n2 = Some true in
  (bad → ∃ msg, equivalent_graph_e2 n1 n2 g = (Raise (ValueError msg), g)) ∧
  (¬ bad → ∃ g', equivalent_graph_e2 n1 n2 g = (Ok tt, g')).
Proof.
  intros Hwf bad.
  destruct (decide ((n1, n2) ∈ edges g ∨ (n2, n1) ∈ edges g)) as [He|He].
  - assert ((n1, n2) ∈ edges g) as He1 by (destruct He; auto using wf_sym).
    assert (is_Some (nodes g !! n1)) as [a1 H1]
      by (eapply elem_of_dom, wf_dom_l; eauto).
    assert (is_Some (nodes g !! n2)) as [a2 H2]
      by (eapply elem_of_dom, wf_dom_r; eauto).
    destruct (loop a1) eqn:Hl1; [|destruct (loop a2) eqn:Hl2].
    + split; [intros _|intros []; right; left; unfold flag_of; by rewrite H1, <- Hl1].
      eexists. unfold equivalent_graph_e2, has_edge.
      rewrite (bind_ok _ _ _ (bool_decide ((n1, n2) ∈ edges g)) g) by done.
      rewrite (bind_ok _ _ _ (bool_decide ((n2, n1) ∈ edges g)) g) by done.
      rewrite (bool_decide_eq_true_2 _ He1). simpl.
      rewrite (bind_ok _ _ _ _ _ (run_get _ _ _ _ H1)), Hl1. done.
    + split; [intros _|intros []; right; right; unfold flag_of; by rewrite H2, <- Hl2].
      eexists. unfold equivalent_graph_e2, has_edge.
      rewrite (bind_ok _ _ _ (bool_decide ((n1, n2) ∈ edges g)) g) by done.
      rewrite (bind_ok _ _ _ (bool_decide ((n2, n1) ∈ edges g)) g) by done.
      rewrite (bool_decide_eq_true_2 _ He1). simpl.
      rewrite (bind_ok _ _ _ _ _ (run_get _ _ _ _ H1)), Hl1.
      rewrite (bind_ok _ _ _ _ _ (run_get _ _ _ _ H2)), Hl2. done.
    + split.
      * unfold bad, flag_of. rewrite H1, H2. simpl.
        intros [[Hno _]|[?|?]]; [done|congruence..].
      * intros _. destruct (e2_ok n1 n2 g a1 a2) as (g' & Hr & _); eauto.
  - split; [intros _|intros []; left; tauto].
    eexists. unfold equivalent_graph_e2, has_edge.
    rewrite (bind_ok _ _ _ (bool_decide ((n1, n2) ∈ edges g)) g) by done.
    rewrite (bind_ok _ _ _ (bool_decide ((n2, n1) ∈ edges g)) g) by done.
    rewrite !bool_decide_eq_false_2 by tauto. done.
Qed.

(** C5: a measurement that returns normally has removed its node, on any
    graph and for any choice; and on a well-formed graph, for a node that
    exists and a choice in {0,1}, each of the three measurements does
    return normally. *)
Theorem measurements_remove_node n c g :
  (∀ r g', measure_x n c g = (Ok r, g') ∨ measure_y n c g = (Ok r, g') ∨
           measure_z n c g = (Ok r, g') → n ∉ dom (nodes g')) ∧
  (wf g → n ∈ dom (nodes g) → c = 0 ∨ c = 1 →
   (∃ r g', measure_x n c g = (Ok r, g')) ∧
   (∃ r g', measure_y n c g = (Ok r, g')) ∧
   (∃ r g', measure_z n c g = (Ok r, g'))).
Proof.
  split.
  - intros r g' [Hm|[Hm|Hm]];
      eauto using measure_x_removes, measure_y_removes, measure_z_removes.
  - intros Hwf [a Hn]%elem_of_dom Hc. split_and!.
    + destruct (measure_x_ok n c g a) as (r & g' & ? & _); eauto.
    + destruct (measure_y_ok n c g a) as (r & g' & ? & _); eauto.
    + destruct (measure_z_ok n c g a) as (g' & ? & _); eauto.
Qed.

(** ** Local complementation and the gates *)

(** C6: on a well-formed graph, for a node that exists,
    [local_complement] applied twice in succession returns normally and
    gives back the graph it started from, edge set and flags; one
    application leaves the flags and the edges at the node untouched
    and toggles every pair of distinct neighbours. *)
Theorem local_complement_twice n g :
  wf g → n ∈ dom (nodes g) →
  (local_complement n ;; local_complement n) g = (Ok tt, g) ∧
  ∃ g1, local_complement n g = (Ok tt, g1) ∧ nodes g1 = nodes g ∧
        (∀ m, ((n, m) ∈ edges g1 ↔ (n, m) ∈ edges g) ∧
              ((m, n) ∈ edges g1 ↔ (m, n) ∈ edges g)) ∧
        (∀ a b, a ∈ nbrs (edges g) n → b ∈ nbrs (edges g) n → a ≠ b →
                ((a, b) ∈ edges g1 ↔ (a, b) ∉ edges g)).
Proof.
  intros Hwf Hn. pose proof (wf_irrefl g n Hwf) as Hnn. split.
  - run run_local_complement. rewrite run_local_complement by done.
    unfold lc. simpl. rewrite lc_edges_involutive by done. by destruct g.
  - exists (lc n g). split; [by apply run_local_complement|].
    split; [done|]. simpl. split.
    + intros m. rewrite !elem_of_lc_edges.
      assert ((m, n) ∈ edges g ↔ (n, m) ∈ edges g)
        by (split; by apply wf_sym).
      tauto.
    + intros a b Ha%elem_of_nbrs Hb%elem_of_nbrs Hne.
      rewrite elem_of_lc_edges. tauto.
Qed.

(** The effect of [s] at a hollow node without loop. *)
Lemma s_hollow_loopless_effect n g a :
  wf g → nodes g !! n = Some a → hollow a = true → loop a = false →
  ∃ g', s n g = (Ok tt, g') ∧
        edges g' = lc_edges (edges g) n ∧
        ∀ m, nodes g' !! m =
             if decide (m ∈ nbrs (lc_edges (edges g) n) n)
             then (λ b, if sign a then sign_attr (advance_attr b)
                        else advance_attr b) <$> nodes g !! m
             else nodes g !! m.
Proof.
  intros Hwf Hn Hh Hl. exists (s_state n g).
  split; [by eapply run_s|].
  unfold s_state, flag_of. rewrite Hn. simpl. rewrite Hh, Hl. cbv zeta.
  autorewrite with graph. destruct (sign a).
  - split; [by autorewrite with graph|]. intros m. case_decide as Hm.
    + rewrite !lookup_upd_attrs_in by (auto using NoDup_order; by apply elem_of_order).
      rewrite nodes_lc. by rewrite <- option_fmap_compose.
    + rewrite !lookup_upd_attrs_notin by (by rewrite elem_of_order). done.
  - split; [by autorewrite with graph|]. intros m. case_decide as Hm.
    + by rewrite lookup_upd_attrs_in by (auto using NoDup_order; by apply elem_of_order).
    + by rewrite lookup_upd_attrs_notin by (by rewrite elem_of_order).
Qed.

(** C7: on a well-formed graph, for a node [n] that is hollow without
    loop, [s] returns normally; the edges are those after
    [local_complement(n)]; every neighbour of [n] after the
    complementation is advanced, and has its sign toggled as well when
    the sign of [n] is set; no other node changes.  On the path 0-1-2
    with node 1 hollow, without loop and sign, [s(1)] joins 0 and 2 and
    sets the loop of both. *)
Theorem s_hollow_loopless :
  (∀ n g a,
     wf g → nodes g !! n = Some a → hollow a = true → loop a = false →
     ∃ g', s n g = (Ok tt, g') ∧
           edges g' = lc_edges (edges g) n ∧
           ∀ m, nodes g' !! m =
                if decide (m ∈ nbrs (lc_edges (edges g) n) n)
                then (λ b, if sign a then sign_attr (advance_attr b)
                           else advance_attr b) <$> nodes g !! m
                else nodes g !! m) ∧
  (∃ g', s 1 path3 = (Ok tt, g') ∧
         (0, 2) ∈ edges g' ∧ (2, 0) ∈ edges g' ∧
         ((0, 2) ∉ edges path3) ∧
         flag_of loop path3 0 = Some false ∧ flag_of loop g' 0 = Some true ∧
         flag_of loop path3 2 = Some false ∧ flag_of loop g' 2 = Some true).
Proof.
  split; [apply s_hollow_loopless_effect|].
  destruct (s_hollow_loopless_effect 1 path3 (mkAttr true false false))
    as (g' & Hs & He & Hm); [apply wf_path3|done..|].
  exists g'. split; [done|]. unfold flag_of. rewrite He, !Hm.
  split_and!; try (by vm_compute); apply (bool_decide_unpack _); by vm_compute.
Qed.

(** When every node of the list has a loop, the scan for a loopless
    neighbour finds none and changes nothing. *)
Lemma scan_all_loops (l : list Z) (k : Z → M (option Z)) g :
  (∀ i, i ∈ l → flag_of loop g i = Some true) →
  for_return l (λ i, li ← get loop i; if negb li then k i else ret None) g
  = (Ok None, g).
Proof.
  induction l as [|i l IH]; intros Hall; simpl; [done|].
  pose proof (Hall i ltac:(left)) as Hli. unfold flag_of in Hli.
  destruct (nodes g !! i) as [ai|] eqn:Hai; [|done]. injection Hli as Hli.
  rewrite bind_assoc, (bind_ok _ _ _ _ _ (run_get _ _ _ _ Hai)), Hli. simpl.
  unfold ret at 1. unfold bind at 1. apply IH. intros j Hj. apply Hall. by right.
Qed.

(** C8: in the branch of [equivalent_fill_node] where the node is hollow,
    without loop, has a neighbour and all its neighbours have a loop,
    both calls of rule E1 return normally: the first one, on the first
    neighbour, gives the node a loop, the second one is on the node
    itself, and the status is 0. *)
Theorem fill_e1_calls_cannot_raise n g a :
  wf g → nodes g !! n = Some a → hollow a = true → loop a = false →
  nbrs (edges g) n ≠ ∅ →
  set_Forall (λ m, flag_of loop g m = Some true) (nbrs (edges g) n) →
  ∃ i g1 g2, head (order (nbrs (edges g) n)) = Some i ∧
             equivalent_graph_e1 i g = (Ok tt, g1) ∧
             flag_of loop g1 n = Some true ∧
             equivalent_graph_e1 n g1 = (Ok tt, g2) ∧
             equivalent_fill_node n g = (Ok 0, g2).
Proof.
  intros Hwf Hn Hh Hl Hnb Hall.
  destruct (order (nbrs (edges g) n)) as [|i l] eqn:Ho.
  { by apply order_nil in Ho. }
  assert (i ∈ nbrs (edges g) n) as Hi by (apply elem_of_order; rewrite Ho; left).
  pose proof (Hall i Hi) as Hli. unfold flag_of in Hli.
  destruct (nodes g !! i) as [ai|] eqn:Hai; [|done]. injection Hli as Hli.
  assert (flag_of loop (e1_state i g) n = Some true) as Hln.
  { rewrite loop_after_e1; [|done|].
    - unfold flag_of. rewrite Hn. simpl. by rewrite Hl.
    - apply elem_of_nbrs, wf_sym; [done|]. by apply elem_of_nbrs. }
  pose proof Hln as Hln'. unfold flag_of in Hln'.
  destruct (nodes (e1_state i g) !! n) as [a'|] eqn:Ha'; [|done].
  injection Hln' as Hln'.
  pose proof (run_e1 _ _ _ Hwf Hai Hli) as He1.
  pose proof (run_e1 _ _ _ (wf_e1_state _ _ Hwf) Ha' Hln') as He2.
  exists i, (e1_state i g), (e1_state n (e1_state i g)).
  split_and!; try done.
  assert (n ∈ dom (nodes g)) as Hnd by (apply elem_of_dom; eauto).
  unfold equivalent_fill_node.
  rewrite (bind_ok _ _ _ _ _ (run_get _ _ _ _ Hn)), Hh.
  rewrite (bind_ok _ _ _ _ _ (run_get _ _ _ _ Hn)), Hl.
  run run_neighbors. rewrite order_length_0, bool_decide_eq_false_2 by done.
  run run_neighbors.
  rewrite (bind_ok _ _ _ None g).
  - run run_neighbors. rewrite Ho.
    rewrite (bind_ok _ _ _ _ _ He1), (bind_ok _ _ _ _ _ He2). done.
  - apply scan_all_loops. intros j Hj. apply Hall. by apply elem_of_order.
Qed.

(** ** The gate [z] as a frame property *)

Lemma only_signs_in_refl S g : only_signs_in S g g.
Proof. by split_and!. Qed.

Lemma only_signs_in_trans S g1 g2 g3 :
  only_signs_in S g1 g2 → only_signs_in S g2 g3 → only_signs_in S g1 g3.
Proof.
  intros (He1 & Hd1 & Hf1 & Ho1) (He2 & Hd2 & Hf2 & Ho2). split_and!.
  - congruence.
  - congruence.
  - intros m. destruct (Hf1 m), (Hf2 m). split; congruence.
  - intros m Hm. rewrite Ho2, Ho1; done.
Qed.

Lemma flip_sign_only_signs S n g :
  n ∈ S → only_signs_in S g (flip_sign n g).2.
Proof.
  intros Hn. destruct (nodes g !! n) as [a|] eqn:Ha.
  - rewrite run_flip_sign by (apply elem_of_dom; eauto). simpl.
    split_and!; [done|apply dom_upd_attr| |].
    + intros m. unfold flag_of. destruct (decide (n = m)) as [<-|Hne].
      * rewrite lookup_upd_attr_eq, Ha. done.
      * by rewrite lookup_upd_attr_ne.
    + intros m Hm. apply lookup_upd_attr_ne. by intros ->.
  - unfold flip_sign. rewrite (bind_raise _ _ _ _ _ (run_get_missing _ _ _ Ha)).
    apply only_signs_in_refl.
Qed.

Lemma for_each_only_signs S l g :
  (∀ i, i ∈ l → i ∈ S) → only_signs_in S g (for_each l flip_sign g).2.
Proof.
  revert g. induction l as [|i l IH]; intros g Hl; simpl.
  - apply only_signs_in_refl.
  - pose proof (flip_sign_only_signs S i g (Hl i ltac:(left))) as Hi.
    unfold bind. destruct (flip_sign i g) as [[[]|e] g1]; [|done].
    eapply only_signs_in_trans; [exact Hi|]. apply IH. intros j Hj. apply Hl. by right.
Qed.

(** C9: whatever the graph and the node, and whether [z] returns or
    raises, the graph it leaves has the same edges and the same nodes,
    every node has its hollow and loop flags as before, and a node other
    than [n] and its neighbours has all its flags as before. *)
Theorem z_only_signs n g :
  only_signs_in ({[n]} ∪ nbrs (edges g) n) g (z n g).2.
Proof.
  unfold z. destruct (nodes g !! n) as [a|] eqn:Ha.
  - rewrite (bind_ok _ _ _ _ _ (run_get _ _ _ _ Ha)).
    destruct (hollow a).
    + erewrite bind_ok by (apply run_neighbors, elem_of_dom; eauto).
      pose proof (for_each_only_signs ({[n]} ∪ nbrs (edges g) n)
                    (order (nbrs (edges g) n)) g) as Hloop.
      unfold bind at 1.
      destruct (for_each _ flip_sign g) as [[[]|e] g1]; simpl in *.
      * assert (only_signs_in ({[n]} ∪ nbrs (edges g) n) g g1) as H1.
        { apply Hloop. intros i Hi%elem_of_order. apply elem_of_union. by right. }
        eapply only_signs_in_trans; [exact H1|].
        destruct (nodes g1 !! n) as [a1|] eqn:Ha1.
        -- rewrite (bind_ok _ _ _ _ _ (run_get _ _ _ _ Ha1)).
           destruct (loop a1); [|apply only_signs_in_refl].
           apply flip_sign_only_signs, elem_of_union. left. by apply elem_of_singleton.
        -- rewrite (bind_raise _ _ _ _ _ (run_get_missing _ _ _ Ha1)).
           apply only_signs_in_refl.
      * apply Hloop. intros i Hi%elem_of_order. apply elem_of_union. by right.
    + apply flip_sign_only_signs, elem_of_union. left. by apply elem_of_singleton.
  - rewrite (bind_raise _ _ _ _ _ (run_get_missing _ _ _ Ha)).
    apply only_signs_in_refl.
Qed.
End Claims.

(** * The properties on concrete graphs

    Here the backend iterates in ascending order and the Clifford table is
    the one built above. *)

(** The table has 24 distinct members, every index decomposes into
    factors whose product is the index again, and S S = Z, H H = I,
    Z Z = I hold. *)
Lemma pauli_table_members :
  length Pauli.members = 24%nat ∧ NoDup Pauli.members.
Proof.
  split; [by vm_compute|]. apply (bool_decide_unpack _). vm_compute. exact I.
Qed.

Lemma pauli_table_decompositions :
  Forall (λ v, Pauli.eval <$> hsz v = Some v) (seqZ 0 24).
Proof. apply (bool_decide_unpack _). vm_compute. exact I. Qed.

Lemma pauli_table_relations :
  matmul Clifford_S Clifford_S = Clifford_Z ∧
  matmul Clifford_H Clifford_H = 0 ∧
  matmul Clifford_Z Clifford_Z = 0 ∧
  Forall (λ v, matmul v 0 = v ∧ matmul 0 v = v) (seqZ 0 24).
Proof.
  split_and!; try (by vm_compute). apply (bool_decide_unpack _). vm_compute. exact I.
Qed.

(** C1, counterexample: a single solid node with only its sign set.
    [get_vops] reads the index of Z back, [apply_vops] applies [z] to the
    node, and the sign flag, true before, is false afterwards. *)
Lemma apply_get_vops_clears_sign :
  get_vops (single (mkAttr false true false))
    = (Ok [(0, Clifford_Z)], single (mkAttr false true false)) ∧
  hsz Clifford_Z = Some [Clifford_Z] ∧
  (vops ← get_vops; apply_vops vops) (single (mkAttr false true false))
    = (Ok tt, single undecorated) ∧
  flag_of sign (single (mkAttr false true false)) 0 = Some true ∧
  flag_of sign (single undecorated) 0 = Some false.
Proof. split_and!; by vm_compute. Qed.

Lemma apply_get_vops_undecorated_witness :
  (vops ← get_vops; apply_vops vops)
    (mkGraph (<[0 := undecorated]> {[ 1 := undecorated ]}) {[ (0, 1); (1, 0) ]})
  = (Ok tt, mkGraph (<[0 := undecorated]> {[ 1 := undecorated ]}) {[ (0, 1); (1, 0) ]}).
Proof.
  apply (apply_get_vops_undecorated _ [0]).
  - by vm_compute.
  - apply (bool_decide_unpack _). vm_compute. exact I.
  - apply (bool_decide_unpack _). vm_compute. exact I.
Defined.

(** C2, counterexample: a single node that is hollow with a loop, sign
    false.  It has no neighbour, yet [measure_z] returns the choice: 1 for
    choice 1 (the sign flag says 0) and 0 for choice 0. *)
Lemma measure_z_isolated_hollow_loop :
  nbrs (edges (single (mkAttr true false true))) 0 = ∅ ∧
  flag_of sign (single (mkAttr true false true)) 0 = Some false ∧
  (measure_z 0 1 (single (mkAttr true false true))).1 = Ok 1 ∧
  (measure_z 0 0 (single (mkAttr true false true))).1 = Ok 0.
Proof. split_and!; by vm_compute. Qed.

Lemma measure_z_outcome_witness :
  (measure_z 1 1 path3).1 =
    Ok (if decide (nbrs (edges path3) 1 = ∅)
        then (if hollow (mkAttr true false false) && loop (mkAttr true false false)
              then 1 else Z.b2z (sign (mkAttr true false false)))
        else 1).
Proof.
  apply (measure_z_outcome 1 1 path3 (mkAttr true false false)).
  - exact wf_path3.
  - reflexivity.
  - right. reflexivity.
Defined.

Lemma equivalent_fill_node_status_witness :
  equivalent_fill_node 0 (single (mkAttr true false false))
  = (Ok 1, single (mkAttr true false false)).
Proof.
  destruct (equivalent_fill_node_status 0 (single (mkAttr true false false))
              (mkAttr true false false)) as (_ & _ & Hone & _).
  - reflexivity.
  - apply Hone; [reflexivity..|]. by vm_compute.
Defined.

Lemma equivalent_graph_e2_errors_witness :
  (∃ msg, equivalent_graph_e2 0 2 path3 = (Raise (ValueError msg), path3)) ∧
  (∃ g', equivalent_graph_e2 0 1 path3 = (Ok tt, g')).
Proof.
  split.
  - apply (equivalent_graph_e2_errors 0 2 path3 wf_path3).
    left. split; apply (bool_decide_unpack _); vm_compute; exact I.
  - apply (equivalent_graph_e2_errors 0 1 path3 wf_path3).
    intros [[Hno _]|[Hl|Hl]].
    + apply Hno. apply (bool_decide_unpack _). vm_compute. exact I.
    + vm_compute in Hl. discriminate.
    + vm_compute in Hl. discriminate.
Defined.

Lemma measurements_remove_node_witness :
  (∃ r g', measure_x 1 1 path3 = (Ok r, g')) ∧
  (∃ r g', measure_y 1 1 path3 = (Ok r, g')) ∧
  (∃ r g', measure_z 1 1 path3 = (Ok r, g')).
Proof.
  apply (measurements_remove_node 1 1 path3).
  - exact wf_path3.
  - apply (bool_decide_unpack _). vm_compute. exact I.
  - right. reflexivity.
Defined.

Lemma local_complement_twice_witness :
  (local_complement 1 ;; local_complement 1) path3 = (Ok tt, path3).
Proof.
  apply (local_complement_twice 1 path3).
  - exact wf_path3.
  - apply (bool_decide_unpack _). vm_compute. exact I.
Defined.

Lemma s_hollow_loopless_witness :
  ∃ g', s 1 path3 = (Ok tt, g') ∧ edges g' = lc_edges (edges path3) 1.
Proof.
  destruct (proj1 s_hollow_loopless 1 path3 (mkAttr true false false))
    as (g' & Hs & He & _).
  - exact wf_path3.
  - reflexivity.
  - reflexivity.
  - reflexivity.
  - exists g'. split; assumption.
Defined.

Lemma fill_e1_calls_cannot_raise_witness :
  ∃ g2, equivalent_fill_node 0 hollow_next_to_loop = (Ok 0, g2).
Proof.
  destruct (fill_e1_calls_cannot_raise 0 hollow_next_to_loop (mkAttr true false false))
    as (i & g1 & g2 & _ & _ & _ & _ & Hfill).
  - apply (bool_decide_unpack _). vm_compute. exact I.
  - reflexivity.
  - reflexivity.
  - reflexivity.
  - apply (bool_decide_unpack _). vm_compute. exact I.
  - apply (bool_decide_unpack _). vm_compute. exact I.
  - exists g2. exact Hfill.
Defined.

(** * Further properties of the engine *)

(** ** Graphs by their entries *)

Lemma graph_eq g g' : nodes g = nodes g' → edges g = edges g' → g = g'.
Proof. destruct g, g'; simpl. by intros -> ->. Qed.

Lemma lookup_upd_attr f n g k :
  nodes (upd_attr f n g) !! k =
    if decide (n = k) then f <$> nodes g !! k else nodes g !! k.
Proof.
  case_decide as Hk; [subst; apply lookup_upd_attr_eq|by apply lookup_upd_attr_ne].
Qed.

Lemma nbrs_empty_lc_edges (E : gset (Z * Z)) n : nbrs E n = ∅ → lc_edges E n = E.
Proof.
  intros Hnb. apply set_eq. intros [a b]. rewrite elem_of_lc_edges.
  assert ((n, a) ∉ E) by (rewrite <- elem_of_nbrs, Hnb; apply not_elem_of_empty).
  tauto.
Qed.

Lemma advance_attr_twice a : advance_attr (advance_attr a) = sign_attr a.
Proof. by destruct a as [? ? []]. Qed.

Lemma sign_attr_twice a : sign_attr (sign_attr a) = a.
Proof. destruct a as [? [] ?]; done. Qed.

Lemma fill_attr_twice a : fill_attr (fill_attr a) = a.
Proof. destruct a as [[] ? ?]; done. Qed.

Lemma sign_advance_attr a : sign_attr (advance_attr a) = advance_attr (sign_attr a).
Proof. by destruct a as [? ? []]. Qed.

Section More.
Context `{IterOrder}.

Lemma lookup_upd_attrs_order f (X : gset Z) g k :
  nodes (upd_attrs f (order X) g) !! k =
    if decide (k ∈ X) then f <$> nodes g !! k else nodes g !! k.
Proof.
  case_decide as Hk.
  - apply lookup_upd_attrs_in; [apply NoDup_order|by apply elem_of_order].
  - apply lookup_upd_attrs_notin. by rewrite elem_of_order.
Qed.

(** ** The decoration primitives *)

(** X1: on an existing node, [advance] applied twice is [flip_sign] (the
    relation SS = Z of the docstring) and applied four times it gives the
    graph back. *)
Theorem advance_twice_is_flip_sign n g :
  n ∈ dom (nodes g) →
  (advance n ;; advance n) g = flip_sign n g ∧
  (advance n ;; advance n ;; advance n ;; advance n) g = (Ok tt, g).
Proof.
  intros Hn. split.
  - run run_advance. rewrite run_advance, run_flip_sign by in_dom.
    f_equal. apply graph_eq; [|done]. apply map_eq. intros k.
    rewrite !lookup_upd_attr. case_decide; [|done].
    destruct (nodes g !! k); [|done]. simpl. by rewrite advance_attr_twice.
  - run run_advance. run run_advance. run run_advance.
    rewrite run_advance by in_dom.
    f_equal. apply graph_eq; [|done]. apply map_eq. intros k.
    rewrite !lookup_upd_attr. case_decide; [|done].
    destruct (nodes g !! k); [|done]. simpl.
    by rewrite !advance_attr_twice, sign_attr_twice.
Qed.

(** X2: [flip_fill], [flip_sign] and [h] are involutions on an existing
    node: applied twice they give the graph back. *)
Theorem flips_are_involutions n g :
  n ∈ dom (nodes g) →
  (flip_fill n ;; flip_fill n) g = (Ok tt, g) ∧
  (flip_sign n ;; flip_sign n) g = (Ok tt, g) ∧
  (h n ;; h n) g = (Ok tt, g).
Proof.
  intros Hn.
  assert ((flip_fill n ;; flip_fill n) g = (Ok tt, g)) as Hfill.
  { run run_flip_fill. rewrite run_flip_fill by in_dom.
    f_equal. apply graph_eq; [|done]. apply map_eq. intros k.
    rewrite !lookup_upd_attr. case_decide; [|done].
    destruct (nodes g !! k); [|done]. simpl. by rewrite fill_attr_twice. }
  split_and!; [done| |done].
  run run_flip_sign. rewrite run_flip_sign by in_dom.
  f_equal. apply graph_eq; [|done]. apply map_eq. intros k.
  rewrite !lookup_upd_attr. case_decide; [|done].
  destruct (nodes g !! k); [|done]. simpl. by rewrite sign_attr_twice.
Qed.

(** X3: on a node that is absent from the graph, every primitive, gate
    and rewrite that starts by reading a flag of the node raises
    [KeyError] and leaves the graph as it was. *)
Theorem absent_node_raises n g :
  nodes g !! n = None →
  flip_fill n g = (Raise (KeyError n), g) ∧
  flip_sign n g = (Raise (KeyError n), g) ∧
  advance n g = (Raise (KeyError n), g) ∧
  h n g = (Raise (KeyError n), g) ∧
  s n g = (Raise (KeyError n), g) ∧
  z n g = (Raise (KeyError n), g) ∧
  equivalent_graph_e1 n g = (Raise (KeyError n), g) ∧
  equivalent_fill_node n g = (Raise (KeyError n), g).
Proof.
  intros Hn. pose proof (run_get_missing hollow n g Hn) as Hh.
  pose proof (run_get_missing sign n g Hn) as Hs.
  pose proof (run_get_missing loop n g Hn) as Hl.
  split_and!; by apply bind_raise.
Qed.

(** ** The gates *)

Lemma z_state_eq n g a :
  nodes g !! n = Some a →
  z_state n g =
    if hollow a then
      if loop a
      then upd_attr sign_attr n (upd_attrs sign_attr (order (nbrs (edges g) n)) g)
      else upd_attrs sign_attr (order (nbrs (edges g) n)) g
    else upd_attr sign_attr n g.
Proof. intros Hn. unfold z_state, flag_of. rewrite Hn. done. Qed.

Lemma s_state_eq n g a :
  nodes g !! n = Some a →
  s_state n g =
    if hollow a then
      if loop a then
        upd_attrs advance_attr (order (nbrs (lc_edges (edges g) n) n))
          (lc n (upd_attr unloop_attr n (upd_attr fill_attr n g)))
      else if sign a then
        upd_attrs sign_attr (order (nbrs (lc_edges (edges g) n) n))
          (upd_attrs advance_attr (order (nbrs (lc_edges (edges g) n) n)) (lc n g))
      else upd_attrs advance_attr (order (nbrs (lc_edges (edges g) n) n)) (lc n g)
    else upd_attr advance_attr n g.
Proof. intros Hn. unfold s_state, flag_of. rewrite Hn. done. Qed.

(** X4: on a well-formed graph [z] applied twice to an existing node gives
    the graph back (Z Z = I). *)
Theorem z_twice n g :
  wf g → n ∈ dom (nodes g) → (z n ;; z n) g = (Ok tt, g).
Proof.
  intros Hwf [a Hn]%elem_of_dom.
  assert (n ∉ nbrs (edges g) n) as Hnn
    by (rewrite elem_of_nbrs; by apply wf_irrefl).
  rewrite (bind_ok _ _ _ _ _ (run_z _ _ _ Hwf Hn)).
  rewrite (z_state_eq _ _ _ Hn).
  set (a' := if hollow a then (if loop a then sign_attr a else a) else sign_attr a).
  assert (hollow a' = hollow a ∧ loop a' = loop a) as [Hh' Hl']
    by (unfold a'; by destruct a as [[] ? []]).
  destruct (hollow a) eqn:Hh; [destruct (loop a) eqn:Hl|].
  - erewrite run_z; [|eauto with graph|]; cycle 1.
    { rewrite lookup_upd_attr_eq, lookup_upd_attrs_order, decide_False, Hn by done.
      done. }
    f_equal. erewrite z_state_eq; cycle 1.
    { rewrite lookup_upd_attr_eq, lookup_upd_attrs_order, decide_False, Hn by done.
      done. }
    simpl. rewrite Hh, Hl. autorewrite with graph.
    apply graph_eq; [|by autorewrite with graph]. apply map_eq. intros k.
    rewrite !lookup_upd_attr, !lookup_upd_attrs_order, !lookup_upd_attr,
      !lookup_upd_attrs_order.
    destruct (nodes g !! k) as [ak|]; repeat case_decide; simpl;
      rewrite ?sign_attr_twice; done.
  - erewrite run_z; [|eauto with graph|]; cycle 1.
    { rewrite lookup_upd_attrs_order, decide_False, Hn by done. done. }
    f_equal. erewrite z_state_eq; cycle 1.
    { rewrite lookup_upd_attrs_order, decide_False, Hn by done. done. }
    rewrite Hh, Hl. autorewrite with graph.
    apply graph_eq; [|by autorewrite with graph]. apply map_eq. intros k.
    rewrite !lookup_upd_attrs_order.
    destruct (nodes g !! k) as [ak|]; repeat case_decide; simpl;
      rewrite ?sign_attr_twice; done.
  - erewrite run_z; [|eauto with graph|]; cycle 1.
    { rewrite lookup_upd_attr_eq, Hn. done. }
    f_equal. erewrite z_state_eq; cycle 1.
    { rewrite lookup_upd_attr_eq, Hn. done. }
    simpl. rewrite Hh.
    apply graph_eq; [|done]. apply map_eq. intros k.
    rewrite !lookup_upd_attr.
    destruct (nodes g !! k) as [ak|]; repeat case_decide; simpl;
      rewrite ?sign_attr_twice; done.
Qed.

(** X5: on a well-formed graph, for an existing node that is solid, or
    hollow without loop, [s] applied twice is the same as [z] (S S = Z):
    same result, same graph. *)
Theorem s_twice_is_z n g a :
  wf g → nodes g !! n = Some a → hollow a = false ∨ loop a = false →
  (s n ;; s n) g = z n g.
Proof.
  intros Hwf Hn Hcase.
  assert ((n, n) ∉ edges g) as Hirr by (by apply wf_irrefl).
  assert (n ∉ nbrs (edges g) n) as Hnn by (by rewrite elem_of_nbrs).
  rewrite (bind_ok _ _ _ _ _ (run_s _ _ _ Hwf Hn)).
  rewrite (run_z _ _ _ Hwf Hn).
  rewrite (s_state_eq _ _ _ Hn), (z_state_eq _ _ _ Hn).
  rewrite !nbrs_lc_edges by done.
  destruct (hollow a) eqn:Hh.
  - destruct Hcase as [?|Hl]; [done|]. rewrite Hl.
    set (g1 := if sign a then _ else _).
    assert (nodes g1 !! n = Some a) as Hn1.
    { unfold g1. destruct (sign a);
        rewrite ?lookup_upd_attrs_order, ?decide_False by done; done. }
    assert (edges g1 = lc_edges (edges g) n) as He1
      by (unfold g1; destruct (sign a); by autorewrite with graph).
    assert (wf g1) as Hwf1 by (unfold g1; destruct (sign a); eauto with graph).
    rewrite (run_s _ _ _ Hwf1 Hn1). f_equal.
    rewrite (s_state_eq _ _ _ Hn1), Hh, Hl, He1.
    rewrite lc_edges_involutive, ?nbrs_lc_edges by done.
    apply graph_eq.
    + apply map_eq. intros k. unfold g1.
      destruct (sign a); autorewrite with graph;
        rewrite !lookup_upd_attrs_order; autorewrite with graph;
        rewrite ?lookup_upd_attrs_order; autorewrite with graph;
        rewrite ?lookup_upd_attrs_order; autorewrite with graph;
        destruct (nodes g !! k) as [ak|]; repeat case_decide; simpl; try done;
        rewrite <- ?sign_advance_attr, ?sign_attr_twice, ?advance_attr_twice;
        rewrite ?sign_attr_twice; done.
    + destruct (sign a); autorewrite with graph; rewrite He1;
        by rewrite lc_edges_involutive.
  - erewrite run_s; [|eauto with graph|]; cycle 1.
    { rewrite lookup_upd_attr_eq, Hn. done. }
    f_equal. erewrite s_state_eq; cycle 1.
    { rewrite lookup_upd_attr_eq, Hn. done. }
    replace (hollow (advance_attr a)) with false
      by (destruct a as [? ? []]; simpl in *; by subst).
    apply graph_eq; [|done]. apply map_eq. intros k.
    rewrite !lookup_upd_attr.
    destruct (nodes g !! k) as [ak|]; repeat case_decide; simpl;
      rewrite ?advance_attr_twice; done.
Qed.

(** X6: on a well-formed graph, for a node that is hollow with a loop,
    [s] returns normally: the node becomes solid without loop and keeps
    its sign, the edges are those after [local_complement], every
    neighbour of the node is advanced and no other node changes. *)
Theorem s_hollow_loop n g a :
  wf g → nodes g !! n = Some a → hollow a = true → loop a = true →
  ∃ g', s n g = (Ok tt, g') ∧
        edges g' = lc_edges (edges g) n ∧
        ∀ m, nodes g' !! m =
             if decide (m = n) then Some (mkAttr false (sign a) false)
             else if decide (m ∈ nbrs (edges g) n)
                  then advance_attr <$> nodes g !! m
                  else nodes g !! m.
Proof.
  intros Hwf Hn Hh Hl. exists (s_state n g).
  split; [by eapply run_s|].
  assert ((n, n) ∉ edges g) as Hirr by (by apply wf_irrefl).
  rewrite (s_state_eq _ _ _ Hn), Hh, Hl, nbrs_lc_edges by done.
  split; [by autorewrite with graph|]. intros m.
  rewrite lookup_upd_attrs_order, nodes_lc, !lookup_upd_attr.
  destruct (decide (m = n)) as [->|Hne].
  - rewrite decide_False by (by rewrite elem_of_nbrs).
    rewrite !decide_True, Hn by done. simpl. unfold unloop_attr, fill_attr. simpl.
    by rewrite Hh.
  - rewrite !(decide_False (P := n = m)) by congruence. done.
Qed.

(** X7: on a well-formed graph the gates [h], [s] and [z] return normally
    on an existing node and keep the graph well formed, on the same nodes
    and with the same neighbours of the node. *)
Theorem gates_keep_wf n g :
  wf g → n ∈ dom (nodes g) →
  ∀ gate, gate = h ∨ gate = s ∨ gate = z →
  ∃ g', gate n g = (Ok tt, g') ∧ wf g' ∧
        dom (nodes g') = dom (nodes g) ∧
        nbrs (edges g') n = nbrs (edges g) n.
Proof.
  intros Hwf Hnd gate Hgate. pose proof Hnd as [a Hn]%elem_of_dom.
  destruct Hgate as [-> | [-> | ->]].
  - exists (upd_attr fill_attr n g). rewrite run_h by done.
    split_and!; eauto with graph. by autorewrite with graph.
  - exists (s_state n g). rewrite (run_s _ _ _ Hwf Hn).
    split_and!; [done|by apply wf_s_state|apply dom_s_state|].
    rewrite (s_state_eq _ _ _ Hn).
    repeat case_match; autorewrite with graph;
      rewrite ?nbrs_lc_edges; auto using wf_irrefl.
  - exists (z_state n g). rewrite (run_z _ _ _ Hwf Hn).
    split_and!; [done|by apply wf_z_state|apply dom_z_state|].
    by rewrite edges_z_state.
Qed.

(** ** Rule E1 *)

Lemma e1_state_eq n g a :
  wf g → nodes g !! n = Some a →
  e1_state n g =
    if negb (sign a) then
      upd_attrs sign_attr (order (nbrs (edges g) n))
        (upd_attr sign_attr n
           (upd_attrs advance_attr (order (nbrs (edges g) n))
              (lc n (upd_attr fill_attr n g))))
    else
      upd_attr sign_attr n
        (upd_attrs advance_attr (order (nbrs (edges g) n))
           (lc n (upd_attr fill_attr n g))).
Proof.
  intros Hwf Hn.
  assert ((n, n) ∉ edges g) as Hirr by (by apply wf_irrefl).
  unfold e1_state. cbv zeta. autorewrite with graph.
  rewrite nbrs_lc_edges by done. unfold flag_of.
  rewrite lookup_upd_attr_eq, lookup_upd_attrs_order.
  rewrite decide_False by (by rewrite elem_of_nbrs).
  rewrite nodes_lc, lookup_upd_attr_eq, Hn. done.
Qed.

Lemma lookup_e1_state n g a k :
  wf g → nodes g !! n = Some a →
  nodes (e1_state n g) !! k =
    if decide (k = n) then Some (mkAttr (negb (hollow a)) (negb (sign a)) (loop a))
    else if decide (k ∈ nbrs (edges g) n)
         then (λ b, if sign a then advance_attr b else sign_attr (advance_attr b))
                <$> nodes g !! k
         else nodes g !! k.
Proof.
  intros Hwf Hn.
  assert (n ∉ nbrs (edges g) n) as Hnn
    by (rewrite elem_of_nbrs; by apply wf_irrefl).
  rewrite (e1_state_eq _ _ _ Hwf Hn).
  destruct (sign a) eqn:Hs; cbn [negb];
    rewrite ?lookup_upd_attrs_order, ?lookup_upd_attr, ?lookup_upd_attrs_order,
      ?nodes_lc, ?lookup_upd_attr;
    destruct (decide (k = n)) as [->|Hne];
    repeat case_decide; try congruence; try done;
    rewrite ?Hn; simpl; unfold sign_attr, fill_attr; simpl; rewrite ?Hs; try done;
    match goal with |- context [nodes g !! ?x] => by destruct (nodes g !! x) end.
Qed.

(** X8: for an existing node, rule E1 raises [ValueError] and leaves the
    graph as it was when the node has no loop; on a well-formed graph and
    a node with a loop it returns normally: the node has its hollow and
    sign flags toggled and keeps its loop, the edges are those after
    [local_complement], each neighbour is advanced and, when the new sign
    of the node is set, has its sign toggled too; no other node changes. *)
Theorem equivalent_graph_e1_effect n g a :
  nodes g !! n = Some a →
  (loop a = false →
   equivalent_graph_e1 n g = (Raise (ValueError "node must have loop"), g)) ∧
  (wf g → loop a = true →
   ∃ g', equivalent_graph_e1 n g = (Ok tt, g') ∧ wf g' ∧
         edges g' = lc_edges (edges g) n ∧
         ∀ k, nodes g' !! k =
              if decide (k = n)
              then Some (mkAttr (negb (hollow a)) (negb (sign a)) true)
              else if decide (k ∈ nbrs (edges g) n)
                   then (λ b, if sign a then advance_attr b
                              else sign_attr (advance_attr b)) <$> nodes g !! k
                   else nodes g !! k).
Proof.
  intros Hn. split.
  - intros Hl. unfold equivalent_graph_e1.
    rewrite (bind_ok _ _ _ _ _ (run_get _ _ _ _ Hn)), Hl. done.
  - intros Hwf Hl. exists (e1_state n g).
    split_and!; [by eapply run_e1|by apply wf_e1_state|apply edges_e1_state|].
    intros k. rewrite (lookup_e1_state _ _ _ _ Hwf Hn), Hl. done.
Qed.

(** X9: on a well-formed graph rule E1 is an involution: applied twice to
    a node with a loop it returns normally and gives the graph back. *)
Theorem equivalent_graph_e1_twice n g a :
  wf g → nodes g !! n = Some a → loop a = true →
  (equivalent_graph_e1 n ;; equivalent_graph_e1 n) g = (Ok tt, g).
Proof.
  intros Hwf Hn Hl.
  assert ((n, n) ∉ edges g) as Hirr by (by apply wf_irrefl).
  rewrite (bind_ok _ _ _ _ _ (run_e1 _ _ _ Hwf Hn Hl)).
  pose proof (lookup_e1_state n g a n Hwf Hn) as Hn1.
  rewrite decide_True in Hn1 by done.
  rewrite (run_e1 _ _ _ (wf_e1_state _ _ Hwf) Hn1) by done. f_equal.
  apply graph_eq.
  - apply map_eq. intros k.
    rewrite (lookup_e1_state _ _ _ _ (wf_e1_state _ _ Hwf) Hn1). simpl.
    rewrite edges_e1_state, nbrs_lc_edges by done.
    rewrite (lookup_e1_state _ _ _ _ Hwf Hn).
    destruct (decide (k = n)) as [->|Hne].
    + rewrite Hn. by destruct a as [[] [] ?].
    + case_decide; [|done]. destruct (nodes g !! k) as [ak|]; [|done]. simpl.
      destruct (sign a); simpl;
        rewrite <- ?sign_advance_attr, ?advance_attr_twice, ?sign_attr_twice;
        rewrite ?sign_attr_twice; done.
  - rewrite !edges_e1_state. by apply lc_edges_involutive.
Qed.

(** ** Rule E2 and the filling of a node *)

Lemma lc_edges_incident_l (E : gset (Z * Z)) n m :
  (n, n) ∉ E → (n, m) ∈ E → (n, m) ∈ lc_edges E n.
Proof. intros Hn. rewrite !elem_of_lc_edges. tauto. Qed.

Lemma lc_edges_incident_r (E : gset (Z * Z)) n m :
  (n, n) ∉ E → (m, n) ∈ E → (m, n) ∈ lc_edges E n.
Proof. intros Hn. rewrite !elem_of_lc_edges. tauto. Qed.

Lemma upd_signs_only_signs S l g :
  (∀ i, i ∈ l → i ∈ S) → (∀ i, i ∈ l → i ∈ dom (nodes g)) →
  only_signs_in S g (upd_attrs sign_attr l g).
Proof.
  intros HS Hd. pose proof (for_each_only_signs S l g HS) as Hl.
  by rewrite (run_for_each sign_attr _ _ _ run_flip_sign Hd) in Hl.
Qed.

(** The effect of rule E2 on the flags and on the edge it is applied to. *)
Lemma equivalent_graph_e2_effect_aux n1 n2 g a1 a2 :
  wf g → (n1, n2) ∈ edges g →
  nodes g !! n1 = Some a1 → nodes g !! n2 = Some a2 →
  loop a1 = false → loop a2 = false →
  ∃ g', equivalent_graph_e2 n1 n2 g = (Ok tt, g') ∧ wf g' ∧
        dom (nodes g') = dom (nodes g) ∧
        (n1, n2) ∈ edges g' ∧ (n2, n1) ∈ edges g' ∧
        (∀ m, flag_of loop g' m = flag_of loop g m) ∧
        (∀ m, flag_of hollow g' m =
              if decide (m = n1 ∨ m = n2) then negb <$> flag_of hollow g m
              else flag_of hollow g m).
Proof.
  intros Hwf He1 H1 H2 Hl1 Hl2. unfold equivalent_graph_e2.
  assert ((n2, n1) ∈ edges g) as He2 by (by apply wf_sym).
  assert (n1 ≠ n2) as Hne by (intros ->; by eapply wf_irrefl).
  unfold has_edge at 1. rewrite (bind_ok _ _ _ (bool_decide ((n1, n2) ∈ edges g)) g) by done.
  unfold has_edge at 1. rewrite (bind_ok _ _ _ (bool_decide ((n2, n1) ∈ edges g)) g) by done.
  rewrite !bool_decide_eq_true_2 by done. simpl.
  rewrite (bind_ok _ _ _ _ _ (run_get _ _ _ _ H1)). rewrite Hl1.
  rewrite (bind_ok _ _ _ _ _ (run_get _ _ _ _ H2)). rewrite Hl2.
  rewrite (bind_ok _ _ _ _ _ (run_get _ _ _ _ H1)).
  rewrite (bind_ok _ _ _ _ _ (run_get _ _ _ _ H2)).
  run run_flip_fill. run run_flip_fill.
  run run_local_complement. run run_local_complement. run run_local_complement.
  run run_neighbors. run run_neighbors.
  set (g0 := upd_attr fill_attr n2 (upd_attr fill_attr n1 g)).
  set (g3 := lc n1 (lc n2 (lc n1 g0))).
  assert (wf g0) as Hwf0 by (unfold g0; eauto with graph).
  assert (wf g3) as Hwf3 by (unfold g3; eauto 10 with graph).
  assert (dom (nodes g3) = dom (nodes g)) as Hd3
    by (unfold g3, g0; by autorewrite with graph).
  assert ((n1, n2) ∈ edges g3 ∧ (n2, n1) ∈ edges g3) as [He31 He32].
  { assert ((n1, n2) ∈ edges g3) as Hin; [|split; [done|by apply wf_sym]].
    unfold g3. rewrite edges_lc.
    apply lc_edges_incident_l; [apply wf_irrefl; eauto with graph|].
    rewrite edges_lc. apply lc_edges_incident_r; [apply wf_irrefl; eauto with graph|].
    rewrite edges_lc. apply lc_edges_incident_l; [by apply wf_irrefl|]. done. }
  assert (∀ m, flag_of loop g3 m = flag_of loop g m ∧
               flag_of hollow g3 m =
                 if decide (m = n1 ∨ m = n2) then negb <$> flag_of hollow g m
                 else flag_of hollow g m) as Hflags.
  { intros m. unfold flag_of, g3, g0. rewrite !nodes_lc, !lookup_upd_attr.
    destruct (nodes g !! m) as [am|];
      repeat case_decide; try done; try (exfalso; intuition congruence). }
  set (S := dom (nodes g)).
  assert (∀ g5, wf g5 → only_signs_in S g3 g5 →
            (n1, n2) ∈ edges g5 ∧ (n2, n1) ∈ edges g5 ∧
            dom (nodes g5) = dom (nodes g) ∧
            (∀ m, flag_of loop g5 m = flag_of loop g m) ∧
            (∀ m, flag_of hollow g5 m =
                  if decide (m = n1 ∨ m = n2) then negb <$> flag_of hollow g m
                  else flag_of hollow g m)) as Hfinal.
  { intros g5 _ (He5 & Hd5 & Hf5 & _). rewrite He5. split_and!; try done.
    - congruence.
    - intros m. destruct (Hf5 m) as [_ ->]. apply Hflags.
    - intros m. destruct (Hf5 m) as [-> _]. apply Hflags. }
  assert (∀ l g5, wf g5 → only_signs_in S g3 g5 →
            (∀ i, i ∈ l → i ∈ dom (nodes g5)) →
            wf (upd_attrs sign_attr l g5) ∧
            only_signs_in S g3 (upd_attrs sign_attr l g5)) as Hstep.
  { intros l g5 Hwf5 Hs5 Hl. split; [eauto with graph|].
    eapply only_signs_in_trans; [exact Hs5|].
    apply upd_signs_only_signs; [|done]. intros i Hi.
    destruct Hs5 as (_ & Hd5 & _). unfold S. rewrite <- Hd3, <- Hd5. auto. }
  erewrite bind_ok; cycle 1.
  { apply (run_for_each sign_attr); [apply run_flip_sign|].
    intros i Hi%elem_of_order%elem_of_intersection. destruct Hi as [Hi _].
    apply elem_of_list_to_set in Hi. eapply neighbors_in_dom; eauto. }
  fold g0. fold g3.
  set (g4 := upd_attrs sign_attr _ g3).
  destruct (Hstep (order (list_to_set (order (nbrs (edges g3) n1)) ∩
                          list_to_set (order (nbrs (edges g3) n2)))) g3)
    as [Hwf4 Hs4]; [done|apply only_signs_in_refl| |].
  { intros i Hi%elem_of_order%elem_of_intersection. destruct Hi as [Hi _].
    apply elem_of_list_to_set in Hi. eapply neighbors_in_dom; eauto. }
  fold g4 in Hwf4, Hs4. clearbody g4.
  assert (∀ (b : bool) n g5, wf g5 → only_signs_in S g3 g5 → n ∈ dom (nodes g) →
            ∃ g6, (if b then flip_sign n ;; nb ← neighbors n; for_each nb flip_sign
                   else ret tt) g5 = (Ok tt, g6) ∧ wf g6 ∧
                  only_signs_in S g3 g6) as Htail.
  { intros [] n g5 Hwf5 Hs5 Hn5; [|by eexists].
    assert (dom (nodes g5) = dom (nodes g)) as Hd5
      by (destruct Hs5 as (_ & -> & _); done).
    erewrite bind_ok by (apply run_flip_sign; by rewrite Hd5).
    erewrite bind_ok by (apply run_neighbors; autorewrite with graph; by rewrite Hd5).
    rewrite (run_for_each sign_attr); [|apply run_flip_sign|].
    - eexists. split; [done|].
      apply Hstep; [eauto with graph| |].
      + destruct (Hstep [n] g5) as [_ Hs]; try done.
        intros i ->%list_elem_of_singleton. by rewrite Hd5.
      + intros i Hi. eapply neighbors_in_dom; eauto with graph.
    - intros i Hi. eapply neighbors_in_dom; eauto with graph. }
  assert (n1 ∈ dom (nodes g)) as Hn1 by (apply elem_of_dom; eauto).
  assert (n2 ∈ dom (nodes g)) as Hn2 by (apply elem_of_dom; eauto).
  destruct (Htail (sign a1) n1 g4) as (g6 & Hr6 & Hwf6 & Hs6); try done.
  rewrite (bind_ok _ _ _ _ _ Hr6).
  destruct (Htail (sign a2) n2 g6) as (g7 & Hr & Hwf7 & Hs7); try done.
  exists g7. rewrite Hr. split; [done|]. split; [done|].
  destruct (Hfinal g7 Hwf7 Hs7) as (? & ? & ? & ? & ?). done.
Qed.

(** X10: on a well-formed graph, for two existing nodes without loop that
    are joined by an edge (found in either orientation), rule E2 returns
    normally; the graph stays well formed on the same nodes, the two nodes
    are still joined, no loop flag changes, and the hollow flag is toggled
    at the two nodes and nowhere else. *)
Theorem equivalent_graph_e2_effect n1 n2 g :
  wf g → (n1, n2) ∈ edges g ∨ (n2, n1) ∈ edges g →
  flag_of loop g n1 = Some false → flag_of loop g n2 = Some false →
  ∃ g', equivalent_graph_e2 n1 n2 g = (Ok tt, g') ∧ wf g' ∧
        dom (nodes g') = dom (nodes g) ∧
        (n1, n2) ∈ edges g' ∧ (n2, n1) ∈ edges g' ∧
        (∀ m, flag_of loop g' m = flag_of loop g m) ∧
        (∀ m, flag_of hollow g' m =
              if decide (m = n1 ∨ m = n2) then negb <$> flag_of hollow g m
              else flag_of hollow g m).
Proof.
  intros Hwf He Hl1 Hl2. unfold flag_of in Hl1, Hl2.
  destruct (nodes g !! n1) as [a1|] eqn:H1; [|done].
  destruct (nodes g !! n2) as [a2|] eqn:H2; [|done].
  injection Hl1 as Hl1. injection Hl2 as Hl2.
  assert ((n1, n2) ∈ edges g) as He1 by (destruct He; auto using wf_sym).
  by apply (equivalent_graph_e2_effect_aux n1 n2 g a1 a2).
Qed.

(** The scan for a loopless neighbour, with what it does to the hollow
    flag of the node. *)
Lemma fill_scan_fills n g a l :
  wf g → nodes g !! n = Some a → loop a = false →
  (∀ i, i ∈ l → i ∈ nbrs (edges g) n) →
  let body := λ i, li ← get loop i;
                   if negb li then equivalent_graph_e2 n i ;; ret (Some 0)
                   else ret None in
  (for_return l body g = (Ok None, g) ∧
   ∀ i, i ∈ l → flag_of loop g i = Some true) ∨
  (∃ g', for_return l body g = (Ok (Some 0), g') ∧ wf g' ∧
         dom (nodes g') = dom (nodes g) ∧
         flag_of hollow g' n = Some (negb (hollow a))).
Proof.
  intros Hwf Hn Hl Hsub body. induction l as [|i l IH].
  - left. split; [done|]. intros i Hi. by apply elem_of_nil in Hi.
  - assert ((n, i) ∈ edges g) as Hni by (apply elem_of_nbrs, Hsub; left).
    assert (is_Some (nodes g !! i)) as [ai Hi]
      by (eapply elem_of_dom, wf_dom_r; eauto).
    assert (for_return (i :: l) body g =
            if loop ai then for_return l body g
            else (r ← (equivalent_graph_e2 n i ;; ret (Some 0));
                  match r with
                  | Some v => ret (Some v)
                  | None => for_return l body
                  end) g) as ->.
    { simpl. unfold body at 1. rewrite bind_assoc.
      rewrite (bind_ok _ _ _ _ _ (run_get _ _ _ _ Hi)).
      by destruct (loop ai). }
    destruct (loop ai) eqn:Hli.
    + destruct IH as [[Hr Hall]|Hr].
      * intros j Hj. apply Hsub. by right.
      * left. split; [done|]. intros j [->|Hj]%elem_of_cons; [|by auto].
        unfold flag_of. by rewrite Hi, <- Hli.
      * by right.
    + right.
      destruct (equivalent_graph_e2_effect_aux n i g a ai)
        as (g' & He2 & Hwf' & Hd' & _ & _ & _ & Hh); auto.
      exists g'. rewrite !bind_assoc. rewrite (bind_ok _ _ _ _ _ He2).
      split_and!; try done. rewrite Hh, decide_True by auto.
      unfold flag_of. by rewrite Hn.
Qed.

(** X11: on a well-formed graph, for an existing node,
    [equivalent_fill_node] returns normally and keeps the graph well
    formed on the same nodes; afterwards the node is hollow exactly when
    the status is 1, which happens exactly when the node was hollow,
    without loop and without neighbour; and a second call changes
    nothing. *)
Theorem equivalent_fill_node_fills n g a :
  wf g → nodes g !! n = Some a →
  ∃ r g', equivalent_fill_node n g = (Ok r, g') ∧ wf g' ∧
          dom (nodes g') = dom (nodes g) ∧
          flag_of hollow g' n = Some (bool_decide (r = 1)) ∧
          (r = 1 ↔ hollow a = true ∧ loop a = false ∧ nbrs (edges g) n = ∅) ∧
          ∃ r', equivalent_fill_node n g' = (Ok r', g').
Proof.
  intros Hwf Hn.
  assert (n ∈ dom (nodes g)) as Hnd by (apply elem_of_dom; eauto).
  assert (∀ g' b, wf g' → nodes g' !! n = Some b → hollow b = false →
            ∃ r', equivalent_fill_node n g' = (Ok r', g')) as Hsolid.
  { intros g' b Hwf' Hb Hhb. unfold equivalent_fill_node.
    rewrite (bind_ok _ _ _ _ _ (run_get _ _ _ _ Hb)), Hhb.
    erewrite bind_ok by (apply run_neighbors, elem_of_dom; eauto).
    destruct (length _ =? 0)%nat; by eexists. }
  assert (∀ g', wf g' → flag_of hollow g' n = Some false →
            ∃ r', equivalent_fill_node n g' = (Ok r', g')) as Hsolid'.
  { intros g' Hwf' Hf. unfold flag_of in Hf.
    destruct (nodes g' !! n) as [b|] eqn:Hb; [|done]. injection Hf as Hf.
    eauto. }
  unfold equivalent_fill_node at 1.
  rewrite (bind_ok _ _ _ _ _ (run_get _ _ _ _ Hn)).
  destruct (hollow a) eqn:Hh.
  - rewrite (bind_ok _ _ _ _ _ (run_get _ _ _ _ Hn)).
    destruct (loop a) eqn:Hl.
    + rewrite (bind_ok _ _ _ _ _ (run_e1 _ _ _ Hwf Hn Hl)).
      assert (flag_of hollow (e1_state n g) n = Some false) as Hf.
      { unfold flag_of. rewrite (lookup_e1_state _ _ _ _ Hwf Hn), decide_True by done.
        simpl. by rewrite Hh. }
      eexists 0, _. split; [done|].
      split_and!; [by apply wf_e1_state|apply dom_e1_state|done| |].
      * split; [done|]. by intros (_ & ? & _).
      * apply Hsolid'; [by apply wf_e1_state|done].
    + run run_neighbors. rewrite order_length_0.
      case_bool_decide as Hnb.
      { eexists 1, g. split; [done|]. split_and!; try done.
        - unfold flag_of. rewrite Hn. simpl. by rewrite Hh.
        - exists 1. unfold equivalent_fill_node.
          rewrite (bind_ok _ _ _ _ _ (run_get _ _ _ _ Hn)), Hh.
          rewrite (bind_ok _ _ _ _ _ (run_get _ _ _ _ Hn)), Hl.
          run run_neighbors. rewrite order_length_0.
          by rewrite bool_decide_eq_true_2. }
      run run_neighbors.
      destruct (fill_scan_fills n g a (order (nbrs (edges g) n)) Hwf Hn Hl)
        as [[Hr Hall]|(g' & Hr & Hwf' & Hd' & Hf')].
      { intros i. by rewrite elem_of_order. }
      * rewrite (bind_ok _ _ _ _ _ Hr). run run_neighbors.
        destruct (order (nbrs (edges g) n)) as [|i l] eqn:Ho.
        { by apply order_nil in Ho. }
        assert (i ∈ nbrs (edges g) n) as Hi
          by (apply elem_of_order; rewrite Ho; left).
        assert (flag_of loop g i = Some true) as Hli by (apply Hall; left).
        unfold flag_of in Hli.
        destruct (nodes g !! i) as [ai|] eqn:Hai; [|done].
        injection Hli as Hli.
        assert (n ≠ i) as Hni.
        { intros ->. apply elem_of_nbrs in Hi. by eapply wf_irrefl. }
        assert (n ∈ nbrs (edges g) i) as Hn_i.
        { apply elem_of_nbrs, wf_sym; [done|]. by apply elem_of_nbrs. }
        rewrite (bind_ok _ _ _ _ _ (run_e1 _ _ _ Hwf Hai Hli)).
        pose proof (lookup_e1_state i g ai n Hwf Hai) as Hn1.
        rewrite decide_False, decide_True, Hn in Hn1 by done. simpl in Hn1.
        set (a1 := if sign ai then advance_attr a else sign_attr (advance_attr a)) in Hn1.
        assert (hollow a1 = true ∧ loop a1 = true) as [Hh1 Hl1].
        { unfold a1. destruct (sign ai), a as [ha sa []]; simpl in *; by subst. }
        pose proof (wf_e1_state i g Hwf) as Hwf1.
        rewrite (bind_ok _ _ _ _ _ (run_e1 _ _ _ Hwf1 Hn1 Hl1)).
        assert (flag_of hollow (e1_state n (e1_state i g)) n = Some false) as Hf.
        { unfold flag_of.
          rewrite (lookup_e1_state _ _ _ _ Hwf1 Hn1), decide_True by done.
          simpl. by rewrite Hh1. }
        eexists 0, _. split; [done|].
        split_and!; [by apply wf_e1_state|by rewrite !dom_e1_state|done| |].
        -- split; [done|]. by intros (_ & _ & ?).
        -- apply Hsolid'; [by apply wf_e1_state|done].
      * rewrite (bind_ok _ _ _ _ _ Hr). rewrite Hh in Hf'. simpl in Hf'.
        eexists 0, g'. split; [done|]. split_and!; try done.
        -- split; [done|]. by intros (_ & _ & ?).
        -- by apply Hsolid'.
  - run run_neighbors. rewrite order_length_0.
    assert (flag_of hollow g n = Some false) as Hf
      by (unfold flag_of; rewrite Hn; simpl; by rewrite Hh).
    case_bool_decide as Hnb.
    + eexists 2, g. split; [done|]. split_and!; try done.
      * split; [done|]. by intros (? & _).
      * by apply Hsolid'.
    + eexists 0, g. split; [done|]. split_and!; try done.
      * split; [done|]. by intros (? & _).
      * by apply Hsolid'.
Qed.

(** ** Measurements *)

Lemma valid_choice c : c = 0 ∨ c = 1 → negb ((c =? 0) || (c =? 1)) = false.
Proof. by intros [-> | ->]. Qed.

Lemma invalid_choice c : c ≠ 0 → c ≠ 1 → negb ((c =? 0) || (c =? 1)) = true.
Proof.
  intros H0 H1. apply Z.eqb_neq in H0, H1. by rewrite H0, H1.
Qed.

Lemma run_neighbors_missing n g :
  nodes g !! n = None → neighbors n g = (Raise (NodeNotFound n), g).
Proof. intros Hn. unfold neighbors. by rewrite Hn. Qed.

(** What a measurement does on an absent node or with a bad choice. *)
Lemma measure_raises n c g :
  (c ≠ 0 → c ≠ 1 →
   measure_x n c g = (Raise (ValueError "choice must be 0 or 1"), g) ∧
   measure_y n c g = (Raise (ValueError "choice must be 0 or 1"), g) ∧
   measure_z n c g = (Raise (ValueError "choice must be 0 or 1"), g)) ∧
  (c = 0 ∨ c = 1 → nodes g !! n = None →
   measure_x n c g = (Raise (NodeNotFound n), g) ∧
   measure_y n c g = (Raise (KeyError n), g) ∧
   measure_z n c g = (Raise (KeyError n), g)).
Proof.
  split.
  - intros H0 H1. unfold measure_x, measure_y, measure_z.
    by rewrite (invalid_choice c H0 H1).
  - intros Hc Hn. unfold measure_x, measure_y, measure_z.
    rewrite (valid_choice c Hc). split_and!.
    + apply bind_raise. by apply run_neighbors_missing.
    + apply bind_raise. unfold s. apply bind_raise. by apply run_get_missing.
    + apply bind_raise. unfold equivalent_fill_node. apply bind_raise.
      by apply run_get_missing.
Qed.

(** X12: a measurement with a choice other than 0 and 1 raises
    [ValueError] before anything else happens, on any graph and node; with
    a valid choice on an absent node it raises a not-found error; in both
    cases the graph is left as it was. *)
Theorem measurements_reject n c g :
  (c ≠ 0 → c ≠ 1 →
   ∀ m, m = measure_x ∨ m = measure_y ∨ m = measure_z →
        m n c g = (Raise (ValueError "choice must be 0 or 1"), g)) ∧
  (c = 0 ∨ c = 1 → n ∉ dom (nodes g) →
   ∀ m, m = measure_x ∨ m = measure_y ∨ m = measure_z →
        ∃ e, m n c g = (Raise e, g) ∧ (e = KeyError n ∨ e = NodeNotFound n)).
Proof.
  destruct (measure_raises n c g) as [Hbad Habsent]. split.
  - intros H0 H1 m Hm. destruct (Hbad H0 H1) as (Hx & Hy & Hz).
    by destruct Hm as [-> | [-> | ->]].
  - intros Hc Hn%not_elem_of_dom m Hm.
    destruct (Habsent Hc Hn) as (Hx & Hy & Hz).
    destruct Hm as [-> | [-> | ->]]; eauto.
Qed.

(** X13: once a measurement of a node has returned, every further
    measurement of that node, in any basis and with any choice, raises and
    leaves the graph as it is. *)
Theorem measured_node_is_gone n c g r g' :
  measure_x n c g = (Ok r, g') ∨ measure_y n c g = (Ok r, g') ∨
  measure_z n c g = (Ok r, g') →
  ∀ m c', m = measure_x ∨ m = measure_y ∨ m = measure_z →
          ∃ e, m n c' g' = (Raise e, g').
Proof.
  intros Hfirst m c' Hm.
  assert (nodes g' !! n = None) as Hgone.
  { apply not_elem_of_dom.
    destruct Hfirst as [Hf|[Hf|Hf]];
      eauto using measure_x_removes, measure_y_removes, measure_z_removes. }
  destruct (measure_raises n c' g') as [Hbad Habsent].
  destruct (decide (c' = 0 ∨ c' = 1)) as [Hc|Hc].
  - destruct (Habsent Hc Hgone) as (Hx & Hy & Hz).
    destruct Hm as [-> | [-> | ->]]; eauto.
  - destruct Hbad as (Hx & Hy & Hz); [tauto..|].
    destruct Hm as [-> | [-> | ->]]; eauto.
Qed.

Lemma lookup_s_state_self n g a :
  wf g → nodes g !! n = Some a → nodes (s_state n g) !! n = Some (s_attr a).
Proof.
  intros Hwf Hn.
  assert ((n, n) ∉ edges g) as Hirr by (by apply wf_irrefl).
  rewrite (s_state_eq _ _ _ Hn), nbrs_lc_edges by done. unfold s_attr.
  destruct (hollow a) eqn:Hh; [destruct (loop a) eqn:Hl; [|destruct (sign a)]|];
    rewrite ?lookup_upd_attrs_order, ?decide_False by (by rewrite elem_of_nbrs);
    rewrite ?lookup_upd_attrs_order, ?decide_False by (by rewrite elem_of_nbrs);
    rewrite ?nodes_lc, ?lookup_upd_attr_eq, ?Hn; try done.
  simpl. unfold unloop_attr, fill_attr. simpl. by rewrite Hh.
Qed.

Lemma lookup_z_state_self n g a :
  wf g → nodes g !! n = Some a → nodes (z_state n g) !! n = Some (z_attr a).
Proof.
  intros Hwf Hn.
  assert ((n, n) ∉ edges g) as Hirr by (by apply wf_irrefl).
  rewrite (z_state_eq _ _ _ Hn). unfold z_attr.
  destruct (hollow a); [destruct (loop a)|];
    rewrite ?lookup_upd_attr_eq;
    rewrite ?lookup_upd_attrs_order, ?decide_False by (by rewrite elem_of_nbrs);
    by rewrite ?Hn.
Qed.

Lemma nbrs_s_state n g a :
  wf g → nodes g !! n = Some a → nbrs (edges (s_state n g)) n = nbrs (edges g) n.
Proof.
  intros Hwf Hn. rewrite (s_state_eq _ _ _ Hn).
  repeat case_match; autorewrite with graph;
    rewrite ?nbrs_lc_edges; auto using wf_irrefl.
Qed.

(** [remove_node] on an isolated node of a well-formed graph only removes
    the node. *)
Lemma filter_isolated n g :
  wf g → nbrs (edges g) n = ∅ →
  filter (λ e, e.1 ≠ n ∧ e.2 ≠ n) (edges g) = edges g.
Proof.
  intros Hwf Hnb. apply set_eq. intros [a b]. rewrite elem_of_filter. simpl.
  split; [tauto|]. intros Hab. split; [|done].
  assert (∀ m, (n, m) ∉ edges g) as Hno
    by (intros m; rewrite <- elem_of_nbrs, Hnb; apply not_elem_of_empty).
  split; intros ->; [by eapply Hno|]. eapply Hno, wf_sym; eauto.
Qed.

Lemma b2z_bit (b : bool) : Z.b2z b = 0 ∨ Z.b2z b = 1.
Proof. destruct b; auto. Qed.

Lemma measure_x_full n c g a :
  wf g → nodes g !! n = Some a → c = 0 ∨ c = 1 →
  ∃ g', measure_x n c g =
          (Ok (if decide (nbrs (edges g) n = ∅)
               then (if hollow a || loop a then c else Z.b2z (sign a))
               else c), g') ∧
        wf g' ∧ dom (nodes g') = dom (nodes g) ∖ {[n]} ∧
        (nbrs (edges g) n = ∅ → g' = mkGraph (delete n (nodes g)) (edges g)).
Proof.
  intros Hwf Hn Hc. unfold measure_x. rewrite (valid_choice c Hc).
  assert (n ∈ dom (nodes g)) as Hnd by (apply elem_of_dom; eauto).
  run run_neighbors. rewrite order_length_0.
  destruct (decide (nbrs (edges g) n = ∅)) as [Hnb|Hnb].
  - rewrite bool_decide_eq_true_2 by done.
    rewrite (bind_ok _ _ _ _ _ (run_get _ _ _ _ Hn)).
    assert ((if hollow a then ret true else get loop n) g
            = (Ok (hollow a || loop a), g)) as Hb.
    { destruct (hollow a); [done|]. by apply run_get. }
    rewrite (bind_ok _ _ _ _ _ Hb).
    assert ((if hollow a || loop a then ret c
             else sg ← get sign n; if sg then ret 1 else ret 0) g
            = (Ok (if hollow a || loop a then c else Z.b2z (sign a)), g)) as Hr.
    { destruct (hollow a || loop a); [done|].
      rewrite (bind_ok _ _ _ _ _ (run_get _ _ _ _ Hn)). by destruct (sign a). }
    rewrite (bind_ok _ _ _ _ _ Hr). run run_remove_node.
    eexists. split; [done|]. split; [by apply wf_remove|]. simpl.
    split; [apply dom_delete_L|]. intros _. by rewrite filter_isolated.
  - rewrite bool_decide_eq_false_2 by done. run run_h.
    destruct (measure_z_ok n c (upd_attr fill_attr n g) (fill_attr a))
      as (g' & Hz & Hwf' & _ & Hd'); [eauto with graph| |done|].
    { by rewrite lookup_upd_attr_eq, Hn. }
    rewrite edges_upd_attr, decide_False in Hz by done.
    exists g'. by rewrite dom_upd_attr in Hd'.
Qed.

Lemma measure_y_full n c g a :
  wf g → nodes g !! n = Some a → c = 0 ∨ c = 1 →
  ∃ g', measure_y n c g =
          (Ok (if decide (nbrs (edges g) n = ∅)
               then (if loop a then Z.b2z (xorb (sign a) (hollow a))
                     else if hollow a then Z.b2z (sign a) else c)
               else c), g') ∧
        wf g' ∧ dom (nodes g') = dom (nodes g) ∖ {[n]}.
Proof.
  intros Hwf Hn Hc. unfold measure_y. rewrite (valid_choice c Hc).
  rewrite (bind_ok _ _ _ _ _ (run_s _ _ _ Hwf Hn)).
  pose proof (lookup_s_state_self n g a Hwf Hn) as Hn1.
  pose proof (wf_s_state n g Hwf) as Hwf1.
  rewrite (bind_ok _ _ _ _ _ (run_z _ _ _ Hwf1 Hn1)).
  pose proof (lookup_z_state_self n _ _ Hwf1 Hn1) as Hn2.
  pose proof (wf_z_state n _ Hwf1) as Hwf2.
  erewrite bind_ok by (apply run_h, elem_of_dom; eauto).
  destruct (measure_z_ok n c (upd_attr fill_attr n (z_state n (s_state n g)))
              (fill_attr (z_attr (s_attr a))))
    as (g' & Hz & Hwf' & _ & Hd'); [eauto with graph| |done|].
  { by rewrite lookup_upd_attr_eq, Hn2. }
  rewrite edges_upd_attr, edges_z_state, (nbrs_s_state _ _ _ Hwf Hn) in Hz.
  rewrite dom_upd_attr, dom_z_state, dom_s_state in Hd'.
  exists g'. split; [|done]. rewrite Hz. f_equal. f_equal.
  case_decide; [|done]. by destruct a as [[] [] []].
Qed.

(** X14: on a well-formed graph, for an existing node and a choice in
    {0,1}, [measure_x] returns the choice when the node has a neighbour;
    on an isolated node it returns the choice when the node is hollow or
    has a loop and its sign flag otherwise, and the graph it leaves is the
    old one without the node. *)
Theorem measure_x_outcome n c g a :
  wf g → nodes g !! n = Some a → c = 0 ∨ c = 1 →
  (measure_x n c g).1 =
    Ok (if decide (nbrs (edges g) n = ∅)
        then (if hollow a || loop a then c else Z.b2z (sign a))
        else c) ∧
  (nbrs (edges g) n = ∅ →
   (measure_x n c g).2 = mkGraph (delete n (nodes g)) (edges g)).
Proof.
  intros Hwf Hn Hc.
  destruct (measure_x_full n c g a Hwf Hn Hc) as (g' & -> & _ & _ & Hiso).
  split; [done|]. intros Hnb. simpl. by apply Hiso.
Qed.

(** X15: on a well-formed graph, for an existing node and a choice in
    {0,1}, [measure_y] returns the choice when the node has a neighbour;
    on an isolated node with a loop it returns the sign flag, negated when
    the node is hollow; on an isolated node without loop it returns the
    sign flag when the node is hollow and the choice when it is solid. *)
Theorem measure_y_outcome n c g a :
  wf g → nodes g !! n = Some a → c = 0 ∨ c = 1 →
  (measure_y n c g).1 =
    Ok (if decide (nbrs (edges g) n = ∅)
        then (if loop a then Z.b2z (xorb (sign a) (hollow a))
              else if hollow a then Z.b2z (sign a) else c)
        else c).
Proof.
  intros Hwf Hn Hc.
  destruct (measure_y_full n c g a Hwf Hn Hc) as (g' & -> & _). done.
Qed.

(** X16: on a well-formed graph, for an existing node and a choice in
    {0,1}, each of the three measurements returns 0 or 1, keeps the graph
    well formed, and removes the measured node and no other node. *)
Theorem measurements_keep_wf n c g :
  wf g → n ∈ dom (nodes g) → c = 0 ∨ c = 1 →
  ∀ m, m = measure_x ∨ m = measure_y ∨ m = measure_z →
       ∃ r g', m n c g = (Ok r, g') ∧ (r = 0 ∨ r = 1) ∧ wf g' ∧
               dom (nodes g') = dom (nodes g) ∖ {[n]}.
Proof.
  intros Hwf [a Hn]%elem_of_dom Hc m Hm.
  destruct Hm as [-> | [-> | ->]].
  - destruct (measure_x_full n c g a Hwf Hn Hc) as (g' & Hr & Hwf' & Hd' & _).
    eexists _, g'. split; [exact Hr|]. split; [|done].
    repeat case_match; auto using b2z_bit.
  - destruct (measure_y_full n c g a Hwf Hn Hc) as (g' & Hr & Hwf' & Hd').
    eexists _, g'. split; [exact Hr|]. split; [|done].
    repeat case_match; auto using b2z_bit.
  - destruct (measure_z_ok n c g a Hwf Hn Hc) as (g' & Hr & Hwf' & _ & Hd').
    eexists _, g'. split; [exact Hr|]. split; [|done].
    repeat case_match; auto using b2z_bit.
Qed.

(** X17: on a well-formed graph, [measure_z] on an existing solid node
    applies no rewrite: the node and its edges are removed, the sign of
    each of its neighbours is toggled when the choice is 1, and nothing
    else changes; the outcome is the choice when the node has a neighbour
    and its sign flag when it is isolated. *)
Theorem measure_z_solid n c g a :
  wf g → nodes g !! n = Some a → hollow a = false → c = 0 ∨ c = 1 →
  ∃ g', measure_z n c g =
          (Ok (if decide (nbrs (edges g) n = ∅) then Z.b2z (sign a) else c), g') ∧
        (∀ x y, (x, y) ∈ edges g' ↔ (x, y) ∈ edges g ∧ x ≠ n ∧ y ≠ n) ∧
        (∀ m, nodes g' !! m =
              if decide (m = n) then None
              else if decide (c = 1 ∧ m ∈ nbrs (edges g) n)
                   then sign_attr <$> nodes g !! m
                   else nodes g !! m).
Proof.
  intros Hwf Hn Hh Hc. unfold measure_z. rewrite (valid_choice c Hc).
  assert (n ∈ dom (nodes g)) as Hnd by (apply elem_of_dom; eauto).
  assert (n ∉ nbrs (edges g) n) as Hnn
    by (rewrite elem_of_nbrs; by apply wf_irrefl).
  assert (equivalent_fill_node n g =
          (Ok (if decide (nbrs (edges g) n = ∅) then 2 else 0), g)) as Hfill.
  { unfold equivalent_fill_node.
    rewrite (bind_ok _ _ _ _ _ (run_get _ _ _ _ Hn)), Hh.
    run run_neighbors. rewrite order_length_0.
    case_bool_decide; by case_decide. }
  rewrite (bind_ok _ _ _ _ _ Hfill).
  set (g2 := if negb (c =? 0)
             then upd_attrs sign_attr (order (nbrs (edges g) n)) g else g).
  assert ((if negb (c =? 0) then nb ← neighbors n; for_each nb flip_sign
           else ret tt) g = (Ok tt, g2)) as Hflip.
  { unfold g2. destruct (negb (c =? 0)); [|done]. run run_neighbors.
    apply (run_for_each sign_attr); [apply run_flip_sign|].
    intros i Hi. eapply neighbors_in_dom; eauto. }
  rewrite (bind_ok _ _ _ _ _ Hflip).
  assert (nodes g2 !! n = Some a) as Hn2.
  { unfold g2. case_match; [|done].
    by rewrite lookup_upd_attrs_order, decide_False. }
  assert (edges g2 = edges g) as He2
    by (unfold g2; case_match; by autorewrite with graph).
  assert ((if (if decide (nbrs (edges g) n = ∅) then 2 else 0) =? 0
           then ret c else sg ← get sign n; ret (Z.b2z sg)) g2 =
          (Ok (if decide (nbrs (edges g) n = ∅) then Z.b2z (sign a) else c), g2))
    as Hres.
  { case_decide; [|done]. simpl.
    by rewrite (bind_ok _ _ _ _ _ (run_get _ _ _ _ Hn2)). }
  rewrite (bind_ok _ _ _ _ _ Hres).
  erewrite bind_ok by (apply run_remove_node, elem_of_dom; eauto).
  eexists. split; [done|]. simpl. split.
  - intros x y. rewrite elem_of_filter, He2. simpl. tauto.
  - intros m. destruct (decide (m = n)) as [->|Hne].
    + apply lookup_delete_eq.
    + rewrite lookup_delete_ne by done. unfold g2.
      destruct Hc as [-> | ->];
        [change (negb (0 =? 0)) with false|change (negb (1 =? 0)) with true];
        cbv iota.
      * rewrite decide_False; [done|]. by intros [? _].
      * rewrite lookup_upd_attrs_order.
        destruct (decide (m ∈ nbrs (edges g) n)) as [Hm|Hm].
        -- by rewrite decide_True by (split; done).
        -- by rewrite decide_False by (by intros [_ ?]).
Qed.

Lemma order_empty : order ∅ = [].
Proof. by apply order_nil. Qed.

(** [measure_z] on an isolated node of a well-formed graph. *)
Lemma measure_z_isolated n c g a :
  wf g → nodes g !! n = Some a → nbrs (edges g) n = ∅ → c = 0 ∨ c = 1 →
  (measure_z n c g).2 = mkGraph (delete n (nodes g)) (edges g).
Proof.
  intros Hwf Hn Hnb Hc. unfold measure_z. rewrite (valid_choice c Hc).
  assert (n ∈ dom (nodes g)) as Hnd by (apply elem_of_dom; eauto).
  assert (∃ r g1, equivalent_fill_node n g = (Ok r, g1) ∧
                  edges g1 = edges g ∧ dom (nodes g1) = dom (nodes g) ∧
                  delete n (nodes g1) = delete n (nodes g))
    as (r & g1 & Hfill & He1 & Hd1 & Hdel1).
  { unfold equivalent_fill_node.
    rewrite (bind_ok _ _ _ _ _ (run_get _ _ _ _ Hn)).
    destruct (hollow a) eqn:Hh.
    - rewrite (bind_ok _ _ _ _ _ (run_get _ _ _ _ Hn)).
      destruct (loop a) eqn:Hl.
      + rewrite (bind_ok _ _ _ _ _ (run_e1 _ _ _ Hwf Hn Hl)).
        eexists _, _. split; [done|].
        rewrite edges_e1_state, dom_e1_state, nbrs_empty_lc_edges by done.
        split_and!; try done. apply map_eq. intros k.
        destruct (decide (k = n)) as [->|Hne]; [by rewrite !lookup_delete_eq|].
        rewrite !lookup_delete_ne by done.
        rewrite (lookup_e1_state _ _ _ _ Hwf Hn), decide_False by done.
        rewrite decide_False; [done|]. rewrite Hnb. apply not_elem_of_empty.
      + run run_neighbors. rewrite Hnb, order_empty. by eexists _, _.
    - run run_neighbors. rewrite Hnb, order_empty. by eexists _, _. }
  rewrite (bind_ok _ _ _ _ _ Hfill).
  assert ((if negb (c =? 0) then nb ← neighbors n; for_each nb flip_sign
           else ret tt) g1 = (Ok tt, g1)) as Hflip.
  { destruct (negb (c =? 0)); [|done].
    erewrite bind_ok by (apply run_neighbors; by rewrite Hd1).
    by rewrite He1, Hnb, order_empty. }
  rewrite (bind_ok _ _ _ _ _ Hflip).
  assert (is_Some (nodes g1 !! n)) as [a1 Hn1]
    by (apply elem_of_dom; by rewrite Hd1).
  assert (∃ res, (if r =? 0 then ret c else sg ← get sign n; ret (Z.b2z sg)) g1
                 = (Ok res, g1)) as [res Hres].
  { destruct (r =? 0); [by eexists|].
    rewrite (bind_ok _ _ _ _ _ (run_get _ _ _ _ Hn1)). by eexists. }
  rewrite (bind_ok _ _ _ _ _ Hres).
  erewrite bind_ok by (apply run_remove_node; by rewrite Hd1).
  unfold ret. simpl. rewrite Hdel1, He1. by rewrite filter_isolated.
Qed.

(** X18: on a well-formed graph, measuring an isolated node, in any of the
    three bases and with a choice in {0,1}, leaves the graph without that
    node and otherwise as it was: no other flag and no edge changes. *)
Theorem measure_isolated_frame n c g :
  wf g → n ∈ dom (nodes g) → nbrs (edges g) n = ∅ → c = 0 ∨ c = 1 →
  (measure_x n c g).2 = mkGraph (delete n (nodes g)) (edges g) ∧
  (measure_y n c g).2 = mkGraph (delete n (nodes g)) (edges g) ∧
  (measure_z n c g).2 = mkGraph (delete n (nodes g)) (edges g).
Proof.
  intros Hwf [a Hn]%elem_of_dom Hnb Hc. split_and!.
  - destruct (measure_x_full n c g a Hwf Hn Hc) as (g' & -> & _ & _ & Hiso).
    simpl. by apply Hiso.
  - unfold measure_y. rewrite (valid_choice c Hc).
    rewrite (bind_ok _ _ _ _ _ (run_s _ _ _ Hwf Hn)).
    pose proof (lookup_s_state_self n g a Hwf Hn) as Hn1.
    pose proof (wf_s_state n g Hwf) as Hwf1.
    rewrite (bind_ok _ _ _ _ _ (run_z _ _ _ Hwf1 Hn1)).
    pose proof (lookup_z_state_self n _ _ Hwf1 Hn1) as Hn2.
    pose proof (wf_z_state n _ Hwf1) as Hwf2.
    erewrite bind_ok by (apply run_h, elem_of_dom; eauto).
    set (g3 := upd_attr fill_attr n (z_state n (s_state n g))).
    assert (edges g3 = edges g) as He3.
    { unfold g3. rewrite edges_upd_attr, edges_z_state, (s_state_eq _ _ _ Hn).
      repeat case_match; autorewrite with graph;
        rewrite ?nbrs_empty_lc_edges; done. }
    assert (delete n (nodes g3) = delete n (nodes g)) as Hdel3.
    { apply map_eq. intros k.
      destruct (decide (k = n)) as [->|Hne]; [by rewrite !lookup_delete_eq|].
      rewrite !lookup_delete_ne by done. unfold g3.
      rewrite lookup_upd_attr_ne by done.
      rewrite (z_state_eq _ _ _ Hn1), (s_state_eq _ _ _ Hn).
      assert (nbrs (lc_edges (edges g) n) n = ∅) as Hnb'
        by (by rewrite nbrs_empty_lc_edges).
      repeat case_match; autorewrite with graph;
        rewrite ?nbrs_empty_lc_edges by done;
        rewrite ?Hnb, ?order_empty; simpl;
        rewrite ?lookup_upd_attr_ne by done;
        rewrite ?Hnb, ?order_empty; simpl;
        rewrite ?nodes_lc, ?lookup_upd_attr_ne by done;
        rewrite ?lookup_alter_ne by congruence; done. }
    rewrite (measure_z_isolated n c g3 (fill_attr (z_attr (s_attr a)))); try done.
    + by rewrite Hdel3, He3.
    + unfold g3. eauto with graph.
    + unfold g3. by rewrite lookup_upd_attr_eq, Hn2.
    + by rewrite He3.
  - by eapply measure_z_isolated.
Qed.

Lemma lookup_z_state n g a k :
  wf g → nodes g !! n = Some a →
  nodes (z_state n g) !! k =
    if decide (k ∈ z_targets a (edges g) n) then sign_attr <$> nodes g !! k
    else nodes g !! k.
Proof.
  intros Hwf Hn.
  assert (n ∉ nbrs (edges g) n) as Hnn
    by (rewrite elem_of_nbrs; by apply wf_irrefl).
  rewrite (z_state_eq _ _ _ Hn). unfold z_targets.
  destruct (hollow a); [destruct (loop a)|];
    rewrite ?lookup_upd_attr, ?lookup_upd_attrs_order;
    repeat case_decide; try done; exfalso;
    repeat match goal with
           | Hx : _ ∈ _ ∪ _ |- _ => apply elem_of_union in Hx as [Hx|Hx]
           | Hx : _ ∈ {[_]} |- _ => apply elem_of_singleton in Hx
           | Hx : _ ∉ _ ∪ _ |- _ => apply not_elem_of_union in Hx as [? ?]
           | Hx : _ ∉ {[_]} |- _ => rewrite elem_of_singleton in Hx
           end; subst; done.
Qed.

(** X19: on a well-formed graph the gates [z] on two existing nodes
    commute: in either order they return normally with the same graph. *)
Theorem z_commutes n m g :
  wf g → n ∈ dom (nodes g) → m ∈ dom (nodes g) →
  (z n ;; z m) g = (z m ;; z n) g.
Proof.
  intros Hwf [a Hn]%elem_of_dom [b Hm]%elem_of_dom.
  assert (∀ x y ax ay, nodes g !! x = Some ax → nodes g !! y = Some ay →
            ∃ ay', nodes (z_state x g) !! y = Some ay' ∧
                   hollow ay' = hollow ay ∧ loop ay' = loop ay) as Hkeep.
  { intros x y ax ay Hx Hy. rewrite (lookup_z_state _ _ _ _ Hwf Hx), Hy.
    case_decide; eexists; (split; [done|]); by destruct ay. }
  destruct (Hkeep n m a b Hn Hm) as (b' & Hm' & Hhb & Hlb).
  destruct (Hkeep m n b a Hm Hn) as (a' & Hn' & Hha & Hla).
  pose proof (wf_z_state n g Hwf) as Hwfn.
  pose proof (wf_z_state m g Hwf) as Hwfm.
  rewrite (bind_ok _ _ _ _ _ (run_z _ _ _ Hwf Hn)), (run_z _ _ _ Hwfn Hm').
  rewrite (bind_ok _ _ _ _ _ (run_z _ _ _ Hwf Hm)), (run_z _ _ _ Hwfm Hn').
  f_equal. apply graph_eq; [|by rewrite !edges_z_state].
  apply map_eq. intros k.
  rewrite (lookup_z_state _ _ _ _ Hwfn Hm'), (lookup_z_state _ _ _ _ Hwfm Hn').
  rewrite (lookup_z_state _ _ _ _ Hwf Hn), (lookup_z_state _ _ _ _ Hwf Hm).
  rewrite !edges_z_state. unfold z_targets. rewrite Hhb, Hlb, Hha, Hla.
  repeat case_decide; done.
Qed.
End More.

(** ** The further properties on concrete graphs *)

Lemma wf_hollow_loop_path : wf hollow_loop_path.
Proof. apply (bool_decide_unpack _). vm_compute. exact I. Qed.

Lemma in_path3 n : n = 0 ∨ n = 1 ∨ n = 2 → n ∈ dom (nodes path3).
Proof.
  intros [-> | [-> | ->]]; apply (bool_decide_unpack _); vm_compute; exact I.
Qed.

Lemma advance_twice_is_flip_sign_witness :
  (advance 1 ;; advance 1) path3 = flip_sign 1 path3.
Proof. apply (advance_twice_is_flip_sign 1 path3). apply in_path3. auto. Defined.

Lemma flips_are_involutions_witness :
  (h 1 ;; h 1) path3 = (Ok tt, path3).
Proof. apply (flips_are_involutions 1 path3). apply in_path3. auto. Defined.

Lemma absent_node_raises_witness :
  s 7 path3 = (Raise (KeyError 7), path3) ∧ z 7 path3 = (Raise (KeyError 7), path3).
Proof.
  destruct (absent_node_raises 7 path3) as (_ & _ & _ & _ & Hs & Hz & _).
  - reflexivity.
  - split; assumption.
Defined.

Lemma z_twice_witness : (z 1 ;; z 1) path3 = (Ok tt, path3).
Proof.
  apply (z_twice 1 path3); [exact wf_path3|]. apply in_path3. auto.
Defined.

Lemma s_twice_is_z_witness : (s 1 ;; s 1) path3 = z 1 path3.
Proof.
  apply (s_twice_is_z 1 path3 (mkAttr true false false)).
  - exact wf_path3.
  - reflexivity.
  - right. reflexivity.
Defined.

Lemma s_hollow_loop_witness :
  ∃ g', s 1 hollow_loop_path = (Ok tt, g') ∧
        edges g' = lc_edges (edges hollow_loop_path) 1.
Proof.
  destruct (s_hollow_loop 1 hollow_loop_path (mkAttr true false true))
    as (g' & Hs & He & _).
  - exact wf_hollow_loop_path.
  - reflexivity.
  - reflexivity.
  - reflexivity.
  - exists g'. split; assumption.
Defined.

Lemma gates_keep_wf_witness :
  ∃ g', s 1 path3 = (Ok tt, g') ∧ wf g'.
Proof.
  destruct (gates_keep_wf 1 path3 wf_path3) with (gate := s)
    as (g' & Hs & Hwf & _).
  - apply in_path3. auto.
  - auto.
  - exists g'. split; assumption.
Defined.

Lemma equivalent_graph_e1_effect_witness :
  equivalent_graph_e1 0 hollow_loop_path
  = (Raise (ValueError "node must have loop"), hollow_loop_path) ∧
  ∃ g', equivalent_graph_e1 1 hollow_loop_path = (Ok tt, g') ∧ wf g'.
Proof.
  split.
  - apply (equivalent_graph_e1_effect 0 hollow_loop_path undecorated); reflexivity.
  - destruct (equivalent_graph_e1_effect 1 hollow_loop_path (mkAttr true false true))
      as [_ Hok]; [reflexivity|].
    destruct Hok as (g' & He & Hwf & _); [exact wf_hollow_loop_path|reflexivity|].
    exists g'. split; assumption.
Defined.

Lemma equivalent_graph_e1_twice_witness :
  (equivalent_graph_e1 1 ;; equivalent_graph_e1 1) hollow_loop_path
  = (Ok tt, hollow_loop_path).
Proof.
  apply (equivalent_graph_e1_twice 1 hollow_loop_path (mkAttr true false true)).
  - exact wf_hollow_loop_path.
  - reflexivity.
  - reflexivity.
Defined.

Lemma equivalent_graph_e2_effect_witness :
  ∃ g', equivalent_graph_e2 1 0 path3 = (Ok tt, g') ∧ (1, 0) ∈ edges g' ∧
        flag_of hollow g' 0 = negb <$> flag_of hollow path3 0.
Proof.
  destruct (equivalent_graph_e2_effect 1 0 path3)
    as (g' & He2 & _ & _ & Hin & _ & _ & Hh).
  - exact wf_path3.
  - left. apply (bool_decide_unpack _). vm_compute. exact I.
  - reflexivity.
  - reflexivity.
  - exists g'. split; [assumption|]. split; [assumption|].
    rewrite (Hh 0). reflexivity.
Defined.

Lemma equivalent_fill_node_fills_witness :
  ∃ r g', equivalent_fill_node 1 path3 = (Ok r, g') ∧
          flag_of hollow g' 1 = Some (bool_decide (r = 1)).
Proof.
  destruct (equivalent_fill_node_fills 1 path3 (mkAttr true false false))
    as (r & g' & Hfill & _ & _ & Hh & _).
  - exact wf_path3.
  - reflexivity.
  - exists r, g'. split; assumption.
Defined.

Lemma measurements_reject_witness :
  measure_y 1 2 path3 = (Raise (ValueError "choice must be 0 or 1"), path3) ∧
  ∃ e, measure_x 7 1 path3 = (Raise e, path3).
Proof.
  destruct (measurements_reject 1 2 path3) as [Hbad _].
  destruct (measurements_reject 7 1 path3) as [_ Habsent].
  split.
  - apply Hbad; [discriminate|discriminate|]. auto.
  - destruct (Habsent (or_intror eq_refl)) with (m := measure_x) as (e & He & _).
    + apply (bool_decide_unpack _). vm_compute. exact I.
    + auto.
    + exists e. assumption.
Defined.

Lemma measured_node_is_gone_witness :
  ∃ e, measure_x 0 1 (measure_z 0 0 (single undecorated)).2
       = (Raise e, (measure_z 0 0 (single undecorated)).2).
Proof.
  apply (measured_node_is_gone 0 0 (single undecorated) 0
           (measure_z 0 0 (single undecorated)).2).
  - right. right. vm_compute. reflexivity.
  - auto.
Defined.

Lemma measure_x_outcome_witness :
  (measure_x 0 1 (single (mkAttr false true false))).1 =
    Ok (if decide (nbrs (edges (single (mkAttr false true false))) 0 = ∅)
        then (if hollow (mkAttr false true false) || loop (mkAttr false true false)
              then 1 else Z.b2z (sign (mkAttr false true false)))
        else 1).
Proof.
  apply (measure_x_outcome 0 1 (single (mkAttr false true false))
           (mkAttr false true false)).
  - apply (bool_decide_unpack _). vm_compute. exact I.
  - reflexivity.
  - right. reflexivity.
Defined.

Lemma measure_y_outcome_witness :
  (measure_y 0 0 (single (mkAttr true true true))).1 =
    Ok (if decide (nbrs (edges (single (mkAttr true true true))) 0 = ∅)
        then (if loop (mkAttr true true true)
              then Z.b2z (xorb (sign (mkAttr true true true))
                               (hollow (mkAttr true true true)))
              else if hollow (mkAttr true true true)
                   then Z.b2z (sign (mkAttr true true true)) else 0)
        else 0).
Proof.
  apply (measure_y_outcome 0 0 (single (mkAttr true true true))
           (mkAttr true true true)).
  - apply (bool_decide_unpack _). vm_compute. exact I.
  - reflexivity.
  - left. reflexivity.
Defined.

Lemma measurements_keep_wf_witness :
  ∃ r g', measure_y 1 1 path3 = (Ok r, g') ∧ (r = 0 ∨ r = 1) ∧ wf g' ∧
          dom (nodes g') = dom (nodes path3) ∖ {[1]}.
Proof.
  apply (measurements_keep_wf 1 1 path3).
  - exact wf_path3.
  - apply in_path3. auto.
  - right. reflexivity.
  - auto.
Defined.

Lemma measure_z_solid_witness :
  ∃ g', measure_z 0 1 path3 = (Ok 1, g') ∧
        flag_of sign g' 1 = Some true ∧ (1, 2) ∈ edges g' ∧ (1, 0) ∉ edges g'.
Proof.
  destruct (measure_z_solid 0 1 path3 undecorated) as (g' & Hz & He & Hm).
  - exact wf_path3.
  - reflexivity.
  - reflexivity.
  - right. reflexivity.
  - exists g'. split; [exact Hz|]. unfold flag_of. rewrite (Hm 1).
    split; [by vm_compute|]. rewrite !He.
    split; [|by intros (_ & _ & ?)].
    split; [|done]. apply (bool_decide_unpack _). vm_compute. exact I.
Defined.

Lemma measure_isolated_frame_witness :
  (measure_y 0 1 (single (mkAttr true true true))).2
  = mkGraph (delete 0 (nodes (single (mkAttr true true true))))
            (edges (single (mkAttr true true true))).
Proof.
  apply (measure_isolated_frame 0 1 (single (mkAttr true true true))).
  - apply (bool_decide_unpack _). vm_compute. exact I.
  - apply (bool_decide_unpack _). vm_compute. exact I.
  - vm_compute. reflexivity.
  - right. reflexivity.
Defined.

Lemma z_commutes_witness : (z 0 ;; z 1) path3 = (z 1 ;; z 0) path3.
Proof.
  apply (z_commutes 0 1 path3); [exact wf_path3| |]; apply in_path3; auto.
Defined.
